(** * Per-identity rate limiters of [task02.py]

    A shallow embedding of the two classes [SlidingWindowRateLimiter] and
    [ThrottlingRateLimiter], followed by the properties the specification
    states about them.

    Modelling conventions.
    - An object is a record of its attributes; a method takes [self] and
      returns its result together with the [self] it leaves behind.
    - A dictionary keyed by user id is a [gmap string _]; a [deque] is a
      list whose head is the left end.
    - Every evaluation of [time.time()] is an explicit argument of the
      method that performs it, in program order.  [record_message] reads the
      clock twice when it accepts (once inside [can_send_message], once for
      the stored timestamp), hence takes two readings.
    - Time and durations are exact numbers (integers, think of clock ticks);
      the rounding of binary floating point is not modelled. *)

From Stdlib Require Import ZArith Lia.
From stdpp Require Import gmap strings list sorting pretty.

Open Scope Z_scope.

(** What a call can do: return a value or raise. *)
Inductive outcome (A : Type) : Type :=
| Returned (a : A)
| Raised (exn : string).
Arguments Returned {A} a.
Arguments Raised {A} exn.

(** ** class SlidingWindowRateLimiter *)
Module SlidingWindowRateLimiter.

Record t : Type := Build {
  window_size : Z;
  max_requests : Z;
  user_messages : gmap string (list Z)
}.

(** Assignment to the attribute [user_messages]. *)
Definition set_user_messages (self : t) (m : gmap string (list Z)) : t :=
  {| window_size := window_size self;
     max_requests := max_requests self;
     user_messages := m |}.

(** [__init__]: three attribute assignments, no check, no [raise]. *)
Definition __init__ (window_size max_requests : Z) : outcome t :=
  Returned {| window_size := window_size;
              max_requests := max_requests;
              user_messages := ∅ |}.

(** The [while] loop of [_cleanup_window]: pop from the left as long as the
    deque is non-empty and its first element is [<= bound]. *)
Fixpoint popleft_while (bound : Z) (q : list Z) : list Z :=
  match q with
  | [] => []
  | t0 :: q' => if t0 <=? bound then popleft_while bound q' else q
  end.

Definition _cleanup_window (self : t) (user_id : string) (current_time : Z) : t :=
  match user_messages self !! user_id with
  | Some q =>
      match popleft_while (current_time - window_size self) q with
      | [] => set_user_messages self (delete user_id (user_messages self))
      | q' => set_user_messages self (<[user_id := q']> (user_messages self))
      end
  | None => self
  end.

Definition can_send_message (self : t) (user_id : string) (current_time : Z)
  : bool * t :=
  let self := _cleanup_window self user_id current_time in
  (Z.of_nat (length (default [] (user_messages self !! user_id)))
     <? max_requests self, self).

(** [current_time] is the reading taken by [can_send_message],
    [stamp] the reading that is appended. *)
Definition record_message (self : t) (user_id : string) (current_time stamp : Z)
  : bool * t :=
  let '(ok, self) := can_send_message self user_id current_time in
  if ok then
    let m :=
      match user_messages self !! user_id with
      | Some _ => user_messages self
      | None => <[user_id := []]> (user_messages self)
      end in
    let m := <[user_id := default [] (m !! user_id) ++ [stamp]]> m in
    (true, set_user_messages self m)
  else (false, self).

Definition time_until_next_allowed (self : t) (user_id : string) (now : Z)
  : Z * t :=
  match user_messages self !! user_id with
  | None | Some [] => (0, self)
  | Some (t0 :: _) => (Z.max 0 (window_size self - (now - t0)), self)
  end.

(** A method call together with the clock readings it consumes. *)
Inductive call : Type :=
| CanSend (user_id : string) (current_time : Z)
| RecordMsg (user_id : string) (current_time stamp : Z)
| TimeUntil (user_id : string) (now : Z).

Definition step (self : t) (c : call) : t :=
  match c with
  | CanSend u now => snd (can_send_message self u now)
  | RecordMsg u now stamp => snd (record_message self u now stamp)
  | TimeUntil u now => snd (time_until_next_allowed self u now)
  end.

Definition run (self : t) (calls : list call) : t := fold_left step calls self.

(** The clock readings of a call, in the order they are taken.  The second
    reading of [record_message] is listed whether or not it happens: a
    rejected call simply does not use it. *)
Definition readings (c : call) : list Z :=
  match c with
  | CanSend _ now => [now]
  | RecordMsg _ now stamp => [now; stamp]
  | TimeUntil _ now => [now]
  end.

Definition clock (calls : list call) : list Z := concat (map readings calls).

(** The time at which a call runs [_cleanup_window] for [user_id]. *)
Definition cleanup_time (user_id : string) (c : call) : option Z :=
  match c with
  | CanSend u now | RecordMsg u now _ =>
      if decide (u = user_id) then Some now else None
  | TimeUntil _ _ => None
  end.

Definition last_cleanup (user_id : string) (calls : list call) : option Z :=
  fold_left (fun acc c => match cleanup_time user_id c with
                          | Some now => Some now
                          | None => acc
                          end) calls None.

(** A run of [record_message] calls for one user; the results are listed
    in call order. *)
Fixpoint record_all (self : t) (user_id : string) (reads : list (Z * Z))
  : list bool * t :=
  match reads with
  | [] => ([], self)
  | (now, stamp) :: reads' =>
      let '(ok, self) := record_message self user_id now stamp in
      let '(oks, self) := record_all self user_id reads' in
      (ok :: oks, self)
  end.

End SlidingWindowRateLimiter.

(** ** class ThrottlingRateLimiter *)
Module ThrottlingRateLimiter.

Record t : Type := Build {
  min_interval : Z;
  user_last_message : gmap string Z
}.

Definition set_user_last_message (self : t) (m : gmap string Z) : t :=
  {| min_interval := min_interval self; user_last_message := m |}.

(** [__init__]: two attribute assignments, no check, no [raise]. *)
Definition __init__ (min_interval : Z) : outcome t :=
  Returned {| min_interval := min_interval; user_last_message := ∅ |}.

Definition can_send_message (self : t) (user_id : string) (current_time : Z)
  : bool * t :=
  (match user_last_message self !! user_id with
   | None => true
   | Some last => current_time - last >=? min_interval self
   end, self).

Definition record_message (self : t) (user_id : string) (current_time stamp : Z)
  : bool * t :=
  let '(ok, self) := can_send_message self user_id current_time in
  if ok then
    (true, set_user_last_message self (<[user_id := stamp]> (user_last_message self)))
  else (false, self).

Definition time_until_next_allowed (self : t) (user_id : string) (now : Z)
  : Z * t :=
  match user_last_message self !! user_id with
  | None => (0, self)
  | Some last => (Z.max 0 (min_interval self - (now - last)), self)
  end.

Inductive call : Type :=
| CanSend (user_id : string) (current_time : Z)
| RecordMsg (user_id : string) (current_time stamp : Z)
| TimeUntil (user_id : string) (now : Z).

Definition step (self : t) (c : call) : t :=
  match c with
  | CanSend u now => snd (can_send_message self u now)
  | RecordMsg u now stamp => snd (record_message self u now stamp)
  | TimeUntil u now => snd (time_until_next_allowed self u now)
  end.

Definition run (self : t) (calls : list call) : t := fold_left step calls self.

Fixpoint record_all (self : t) (user_id : string) (reads : list (Z * Z))
  : list bool * t :=
  match reads with
  | [] => ([], self)
  | (now, stamp) :: reads' =>
      let '(ok, self) := record_message self user_id now stamp in
      let '(oks, self) := record_all self user_id reads' in
      (ok :: oks, self)
  end.

End ThrottlingRateLimiter.

Module SW := SlidingWindowRateLimiter.
Module TH := ThrottlingRateLimiter.

(** ** Derived notions used in the statements *)

(** The deque stored for a user, [[]] when the key is absent: the value of
    [self.user_messages.get(user_id, [])]. *)
Definition stored (self : SW.t) (u : string) : list Z :=
  default [] (SW.user_messages self !! u).

(** Every deque in the dictionary is non-empty and no longer than
    [max_requests]. *)
Definition sw_wf (self : SW.t) : Prop :=
  ∀ u q, SW.user_messages self !! u = Some q →
         q ≠ [] ∧ Z.of_nat (length q) ≤ SW.max_requests self.

(** What holds of the deque [q] stored for [u] after the calls [calls]:
    it is sorted, made of clock readings of the history, and [u] has been
    cleaned at some time [c]; if the window is positive, every stored
    timestamp is younger than [c - window_size]. *)
Definition sw_hist_inv (W : Z) (calls : list SW.call) (self : SW.t) : Prop :=
  ∀ u q, SW.user_messages self !! u = Some q →
         StronglySorted Z.le q
         ∧ (∀ t, t ∈ q → t ∈ SW.clock calls)
         ∧ ∃ c, SW.last_cleanup u calls = Some c
                ∧ (0 < W → Forall (λ t, c - W < t) q).

(** The call is neither an accepted [record_message] for [u] nor a
    [can_send_message] for [u] that pops a timestamp. *)
Definition sw_quiet_call (u : string) (self : SW.t) (c : SW.call) : bool :=
  match c with
  | SW.CanSend u' now =>
      if decide (u' = u)
      then bool_decide (stored (SW._cleanup_window self u' now) u' = stored self u')
      else true
  | SW.RecordMsg u' now stamp =>
      if decide (u' = u) then negb (fst (SW.record_message self u' now stamp))
      else true
  | SW.TimeUntil _ _ => true
  end.

Fixpoint sw_quiet (u : string) (self : SW.t) (calls : list SW.call) : bool :=
  match calls with
  | [] => true
  | c :: calls' => sw_quiet_call u self c && sw_quiet u (SW.step self c) calls'
  end.

(** The call is not an accepted [record_message] for [u]. *)
Definition th_quiet_call (u : string) (self : TH.t) (c : TH.call) : bool :=
  match c with
  | TH.RecordMsg u' now stamp =>
      if decide (u' = u) then negb (fst (TH.record_message self u' now stamp))
      else true
  | TH.CanSend _ _ | TH.TimeUntil _ _ => true
  end.

Fixpoint th_quiet (u : string) (self : TH.t) (calls : list TH.call) : bool :=
  match calls with
  | [] => true
  | c :: calls' => th_quiet_call u self c && th_quiet u (TH.step self c) calls'
  end.

(** The stamp appended by a call, if the call is an accepted
    [record_message] for [u]; the log of all such stamps along a run. *)
Definition sw_accepted_call (u : string) (self : SW.t) (c : SW.call) : list Z :=
  match c with
  | SW.RecordMsg u' now stamp =>
      if decide (u' = u)
      then if fst (SW.record_message self u' now stamp) then [stamp] else []
      else []
  | SW.CanSend _ _ | SW.TimeUntil _ _ => []
  end.

Fixpoint sw_accepted (u : string) (self : SW.t) (calls : list SW.call) : list Z :=
  match calls with
  | [] => []
  | c :: calls' => sw_accepted_call u self c ++ sw_accepted u (SW.step self c) calls'
  end.

Definition th_accepted_call (u : string) (self : TH.t) (c : TH.call) : list Z :=
  match c with
  | TH.RecordMsg u' now stamp =>
      if decide (u' = u)
      then if fst (TH.record_message self u' now stamp) then [stamp] else []
      else []
  | TH.CanSend _ _ | TH.TimeUntil _ _ => []
  end.

Fixpoint th_accepted (u : string) (self : TH.t) (calls : list TH.call) : list Z :=
  match calls with
  | [] => []
  | c :: calls' => th_accepted_call u self c ++ th_accepted u (TH.step self c) calls'
  end.

(** The clock readings of a call of the throttling limiter, and of a run. *)
Definition th_readings (c : TH.call) : list Z :=
  match c with
  | TH.CanSend _ now => [now]
  | TH.RecordMsg _ now stamp => [now; stamp]
  | TH.TimeUntil _ now => [now]
  end.

Definition th_clock (calls : list TH.call) : list Z := concat (map th_readings calls).

(** The user a call is made for. *)
Definition sw_user (c : SW.call) : string :=
  match c with
  | SW.CanSend u _ | SW.RecordMsg u _ _ | SW.TimeUntil u _ => u
  end.

Definition th_user (c : TH.call) : string :=
  match c with
  | TH.CanSend u _ | TH.RecordMsg u _ _ | TH.TimeUntil u _ => u
  end.

(** How many of the stamps [l] lie in the window [(t - W, t]]. *)
Definition in_window (W t : Z) (l : list Z) : nat :=
  length (filter (λ a, t - W < a ∧ a ≤ t) l).

(** What a caller observes of a call: the boolean of [can_send_message] or
    [record_message], or the wait of [time_until_next_allowed]. *)
Inductive answer : Type :=
| Allowed (b : bool)
| Wait (w : Z).

Definition sw_answer (self : SW.t) (c : SW.call) : answer :=
  match c with
  | SW.CanSend u now => Allowed (fst (SW.can_send_message self u now))
  | SW.RecordMsg u now stamp => Allowed (fst (SW.record_message self u now stamp))
  | SW.TimeUntil u now => Wait (fst (SW.time_until_next_allowed self u now))
  end.

Fixpoint sw_answers (self : SW.t) (calls : list SW.call) : list answer :=
  match calls with
  | [] => []
  | c :: calls' => sw_answer self c :: sw_answers (SW.step self c) calls'
  end.

Definition th_answer (self : TH.t) (c : TH.call) : answer :=
  match c with
  | TH.CanSend u now => Allowed (fst (TH.can_send_message self u now))
  | TH.RecordMsg u now stamp => Allowed (fst (TH.record_message self u now stamp))
  | TH.TimeUntil u now => Wait (fst (TH.time_until_next_allowed self u now))
  end.

Fixpoint th_answers (self : TH.t) (calls : list TH.call) : list answer :=
  match calls with
  | [] => []
  | c :: calls' => th_answer self c :: th_answers (TH.step self c) calls'
  end.

(** The same call, made on the throttling limiter. *)
Definition th_of_sw (c : SW.call) : TH.call :=
  match c with
  | SW.CanSend u now => TH.CanSend u now
  | SW.RecordMsg u now stamp => TH.RecordMsg u now stamp
  | SW.TimeUntil u now => TH.TimeUntil u now
  end.

(** A sliding-window limiter with [max_requests = 1] and a throttling
    limiter agree on user [u], for all clock readings from [lo] on: either
    the deque is the one stamp the throttling limiter remembers, or the
    deque is gone and the throttling limiter remembers nothing or a stamp
    that is expired from [lo] on. *)
Definition agree_on (W lo : Z) (sw : SW.t) (th : TH.t) (u : string) : Prop :=
  (stored sw u = []
   ∧ match TH.user_last_message th !! u with
     | None => True
     | Some a => a ≤ lo - W
     end)
  ∨ (∃ a, stored sw u = [a] ∧ TH.user_last_message th !! u = Some a).

(** ** The demonstration drivers [test_rate_limiter] and
    [test_throttling_limiter]

    The drivers print one line per message and sleep between messages.
    A printed line is modelled by the values it shows: the message id, the
    user id and, for a rejected message, the wait; the output is the list
    of lines.  Sleeping only moves the clock, and the clock is an argument:
    [clock message_id] gives the readings taken while the message is
    handled (the check and the stamp of [record_message], then the reading
    of [time_until_next_allowed]).  [str(user_id)] is [pretty user_id]. *)
Definition line : Type := nat * nat * option Z.

Definition sw_message (clock : nat → Z * Z * Z) (limiter : SW.t) (message_id : nat)
  : line * SW.t :=
  let user_id := (message_id mod 5 + 1)%nat in
  let '(now, stamp, query) := clock message_id in
  let '(result, limiter) := SW.record_message limiter (pretty user_id) now stamp in
  let '(wait_time, limiter) :=
    SW.time_until_next_allowed limiter (pretty user_id) query in
  ((message_id, user_id, if result then None else Some wait_time), limiter).

Fixpoint sw_series (clock : nat → Z * Z * Z) (limiter : SW.t) (ids : list nat)
  : list line * SW.t :=
  match ids with
  | [] => ([], limiter)
  | message_id :: ids' =>
      let '(l, limiter) := sw_message clock limiter message_id in
      let '(ls, limiter) := sw_series clock limiter ids' in
      (l :: ls, limiter)
  end.

(** The two loops run over [range(1, 11)] and [range(11, 21)]. *)
Definition test_rate_limiter (clock : nat → Z * Z * Z)
  : outcome (list line * list line) :=
  match SW.__init__ 10 1 with
  | Returned limiter =>
      let '(first, limiter) := sw_series clock limiter (seq 1 10) in
      let '(second, limiter) := sw_series clock limiter (seq 11 10) in
      Returned (first, second)
  | Raised exn => Raised exn
  end.

Definition th_message (clock : nat → Z * Z * Z) (limiter : TH.t) (message_id : nat)
  : line * TH.t :=
  let user_id := (message_id mod 5 + 1)%nat in
  let '(now, stamp, query) := clock message_id in
  let '(result, limiter) := TH.record_message limiter (pretty user_id) now stamp in
  let '(wait_time, limiter) :=
    TH.time_until_next_allowed limiter (pretty user_id) query in
  ((message_id, user_id, if result then None else Some wait_time), limiter).

Fixpoint th_series (clock : nat → Z * Z * Z) (limiter : TH.t) (ids : list nat)
  : list line * TH.t :=
  match ids with
  | [] => ([], limiter)
  | message_id :: ids' =>
      let '(l, limiter) := th_message clock limiter message_id in
      let '(ls, limiter) := th_series clock limiter ids' in
      (l :: ls, limiter)
  end.

Definition test_throttling_limiter (clock : nat → Z * Z * Z)
  : outcome (list line * list line) :=
  match TH.__init__ 10 with
  | Returned limiter =>
      let '(first, limiter) := th_series clock limiter (seq 1 10) in
      let '(second, limiter) := th_series clock limiter (seq 11 10) in
      Returned (first, second)
  | Raised exn => Raised exn
  end.


(** * Scenarios *)

(** The scenario of the specification: [window_size=10], [max_requests=1]. *)
Example sw_scenario :
  let l := SW.Build 10 1 ∅ in
  let '(r0, l) := SW.record_message l "1" 0 0 in
  let '(c5, l) := SW.can_send_message l "1" 5 in
  let '(w5, l) := SW.time_until_next_allowed l "1" 5 in
  let '(r10, l) := SW.record_message l "1" 10 10 in
  (r0, c5, w5, r10, SW.user_messages l !! "1") = (true, false, 5, true, Some [10]).
Proof. vm_compute. reflexivity. Qed.

(** The throttling scenario of the specification, in ticks of a tenth of a
    second: [min_interval=100], calls at 0, 99 and 100. *)
Example th_scenario :
  let l := TH.Build 100 ∅ in
  let '(r0, l) := TH.record_message l "1" 0 0 in
  let '(r99, l) := TH.record_message l "1" 99 99 in
  let '(w99, l) := TH.time_until_next_allowed l "1" 99 in
  let '(r100, l) := TH.record_message l "1" 100 100 in
  (r0, r99, w99, r100, TH.user_last_message l !! "1")
  = (true, false, 1, true, Some 100).
Proof. vm_compute. reflexivity. Qed.

(** * Basic facts about the sliding-window limiter *)

Section SlidingWindowFacts.
Implicit Types (self : SW.t) (u : string) (q : list Z).

Lemma popleft_while_split bound q :
  ∃ pre, q = pre ++ SW.popleft_while bound q ∧ Forall (λ x, x ≤ bound) pre.
Proof.
  induction q as [|x q IH]; simpl.
  - by exists [].
  - destruct (Z.leb_spec x bound) as [Hle|Hgt].
    + destruct IH as (pre & Heq & Hpre).
      exists (x :: pre). split; [simpl; by f_equal | by constructor].
    + by exists [].
Qed.

Lemma popleft_while_head bound q x q' :
  SW.popleft_while bound q = x :: q' → bound < x.
Proof.
  induction q as [|y q IH]; simpl; [done|].
  destruct (Z.leb_spec y bound); [done|].
  intros [= -> ->]. done.
Qed.

Lemma popleft_while_fresh bound q :
  match q with [] => True | x :: _ => bound < x end →
  SW.popleft_while bound q = q.
Proof.
  destruct q as [|x q]; simpl; [done|].
  intros Hx. destruct (Z.leb_spec x bound); [lia | done].
Qed.

Lemma popleft_while_idemp bound q :
  SW.popleft_while bound (SW.popleft_while bound q) = SW.popleft_while bound q.
Proof.
  apply popleft_while_fresh.
  destruct (SW.popleft_while bound q) eqn:E; [done|].
  by eapply popleft_while_head.
Qed.

Lemma popleft_while_length bound q :
  (length (SW.popleft_while bound q) ≤ length q)%nat.
Proof.
  destruct (popleft_while_split bound q) as (pre & Heq & _).
  rewrite Heq at 2. rewrite length_app. lia.
Qed.

(** When the first element of the second part is not expired, popping
    stops inside the first part. *)
Lemma popleft_while_app bound old x q :
  bound < x →
  ∃ old', SW.popleft_while bound (old ++ x :: q) = old' ++ x :: q
          ∧ (length old' ≤ length old)%nat.
Proof.
  intros Hx. induction old as [|y old IH]; simpl.
  - exists []. destruct (Z.leb_spec x bound); [lia|]. done.
  - destruct (Z.leb_spec y bound).
    + destruct IH as (old' & -> & Hlen). exists old'. split; [done | lia].
    + by exists (y :: old).
Qed.

Lemma popleft_while_sorted bound q :
  StronglySorted Z.le q → Forall (λ x, bound < x) (SW.popleft_while bound q).
Proof.
  induction 1 as [|x q Hq IH Hx]; simpl; [constructor|].
  destruct (Z.leb_spec x bound); [done|].
  constructor; [done|].
  eapply Forall_impl; [exact Hx|]. simpl. lia.
Qed.

Lemma cleanup_window_size self u now :
  SW.window_size (SW._cleanup_window self u now) = SW.window_size self.
Proof.
  unfold SW._cleanup_window.
  destruct (SW.user_messages self !! u); [|done].
  by destruct (SW.popleft_while _ _).
Qed.

Lemma cleanup_max_requests self u now :
  SW.max_requests (SW._cleanup_window self u now) = SW.max_requests self.
Proof.
  unfold SW._cleanup_window.
  destruct (SW.user_messages self !! u); [|done].
  by destruct (SW.popleft_while _ _).
Qed.

(** What [_cleanup_window] leaves under the key it cleans. *)
Lemma cleanup_lookup self u now :
  SW.user_messages (SW._cleanup_window self u now) !! u =
  match SW.popleft_while (now - SW.window_size self) (stored self u) with
  | [] => None
  | q' => Some q'
  end.
Proof.
  unfold SW._cleanup_window, stored.
  destruct (SW.user_messages self !! u) as [q|] eqn:E; simpl.
  - destruct (SW.popleft_while _ q); simpl.
    + apply lookup_delete_eq.
    + apply lookup_insert_eq.
  - by rewrite E.
Qed.

Lemma cleanup_stored self u now :
  stored (SW._cleanup_window self u now) u =
  SW.popleft_while (now - SW.window_size self) (stored self u).
Proof.
  unfold stored at 1. rewrite cleanup_lookup.
  by destruct (SW.popleft_while _ _).
Qed.

Lemma cleanup_lookup_ne self u u' now :
  u ≠ u' →
  SW.user_messages (SW._cleanup_window self u now) !! u' =
  SW.user_messages self !! u'.
Proof.
  intros Hne. unfold SW._cleanup_window.
  destruct (SW.user_messages self !! u) as [q|]; [|done].
  destruct (SW.popleft_while _ q); simpl.
  - by apply lookup_delete_ne.
  - by apply lookup_insert_ne.
Qed.

(** A record is determined by its three attributes. *)
Lemma sw_ext self self' :
  SW.window_size self = SW.window_size self' →
  SW.max_requests self = SW.max_requests self' →
  SW.user_messages self = SW.user_messages self' →
  self = self'.
Proof. destruct self, self'; simpl; by intros -> -> ->. Qed.

(** Cleaning a user whose entry is absent, or non-empty with a first
    element still inside the window, changes nothing. *)
Lemma cleanup_noop self u now :
  match SW.user_messages self !! u with
  | None => True
  | Some [] => False
  | Some (x :: _) => now - SW.window_size self < x
  end →
  SW._cleanup_window self u now = self.
Proof.
  unfold SW._cleanup_window.
  destruct (SW.user_messages self !! u) as [[|x q]|] eqn:E; [done| |done].
  intros Hx. simpl. destruct (Z.leb_spec x (now - SW.window_size self)); [lia|].
  apply sw_ext; simpl; [done..|]. by apply insert_id.
Qed.

Lemma cleanup_idemp self u now :
  SW._cleanup_window (SW._cleanup_window self u now) u now =
  SW._cleanup_window self u now.
Proof.
  apply cleanup_noop. rewrite cleanup_lookup, cleanup_window_size.
  destruct (SW.popleft_while _ _) as [|x q'] eqn:E; [done|].
  by eapply popleft_while_head.
Qed.

Lemma can_send_state self u now :
  snd (SW.can_send_message self u now) = SW._cleanup_window self u now.
Proof. done. Qed.

Lemma can_send_result self u now :
  fst (SW.can_send_message self u now) =
  (Z.of_nat (length (SW.popleft_while (now - SW.window_size self) (stored self u)))
     <? SW.max_requests self).
Proof.
  unfold SW.can_send_message. simpl.
  fold (stored (SW._cleanup_window self u now) u).
  by rewrite cleanup_stored, cleanup_max_requests.
Qed.

(** The two outcomes of [record_message]. *)
Lemma record_accept self u now stamp :
  fst (SW.can_send_message self u now) = true →
  SW.record_message self u now stamp =
  (true, SW.set_user_messages (SW._cleanup_window self u now)
           (<[u := SW.popleft_while (now - SW.window_size self) (stored self u)
                   ++ [stamp]]>
              (SW.user_messages (SW._cleanup_window self u now)))).
Proof.
  intros Hok. unfold SW.record_message.
  destruct (SW.can_send_message self u now) as [ok self1] eqn:E.
  simpl in Hok. subst ok.
  assert (self1 = SW._cleanup_window self u now) as ->
    by (by rewrite <- can_send_state, E).
  f_equal. f_equal.
  rewrite <- cleanup_stored. unfold stored.
  destruct (SW.user_messages _ !! u) as [q|] eqn:Eq; simpl.
  - by rewrite Eq.
  - rewrite lookup_insert_eq. simpl. by rewrite insert_insert_eq.
Qed.

Lemma record_reject self u now stamp :
  fst (SW.can_send_message self u now) = false →
  SW.record_message self u now stamp = (false, SW._cleanup_window self u now).
Proof.
  intros Hok. unfold SW.record_message.
  destruct (SW.can_send_message self u now) as [ok self1] eqn:E.
  simpl in Hok. subst ok. by rewrite <- can_send_state, E.
Qed.

Lemma record_result self u now stamp :
  fst (SW.record_message self u now stamp) = fst (SW.can_send_message self u now).
Proof.
  destruct (fst (SW.can_send_message self u now)) eqn:E.
  - by rewrite record_accept.
  - by rewrite record_reject.
Qed.

Lemma record_stored self u now stamp :
  stored (snd (SW.record_message self u now stamp)) u =
  let q := SW.popleft_while (now - SW.window_size self) (stored self u) in
  if fst (SW.can_send_message self u now) then q ++ [stamp] else q.
Proof.
  destruct (fst (SW.can_send_message self u now)) eqn:E; simpl.
  - rewrite record_accept by done. unfold stored; simpl.
    by rewrite lookup_insert_eq.
  - rewrite record_reject by done. apply cleanup_stored.
Qed.

Lemma record_lookup_ne self u u' now stamp :
  u ≠ u' →
  SW.user_messages (snd (SW.record_message self u now stamp)) !! u' =
  SW.user_messages self !! u'.
Proof.
  intros Hne. destruct (fst (SW.can_send_message self u now)) eqn:E.
  - rewrite record_accept by done. simpl.
    rewrite lookup_insert_ne by done. by apply cleanup_lookup_ne.
  - rewrite record_reject by done. by apply cleanup_lookup_ne.
Qed.

Lemma record_window_size self u now stamp :
  SW.window_size (snd (SW.record_message self u now stamp)) = SW.window_size self.
Proof.
  destruct (fst (SW.can_send_message self u now)) eqn:E.
  - rewrite record_accept by done. apply cleanup_window_size.
  - rewrite record_reject by done. apply cleanup_window_size.
Qed.

Lemma record_max_requests self u now stamp :
  SW.max_requests (snd (SW.record_message self u now stamp)) = SW.max_requests self.
Proof.
  destruct (fst (SW.can_send_message self u now)) eqn:E.
  - rewrite record_accept by done. apply cleanup_max_requests.
  - rewrite record_reject by done. apply cleanup_max_requests.
Qed.

Lemma time_until_state self u now :
  snd (SW.time_until_next_allowed self u now) = self.
Proof.
  unfold SW.time_until_next_allowed.
  by destruct (SW.user_messages self !! u) as [[|? ?]|].
Qed.

Lemma time_until_value self u now :
  fst (SW.time_until_next_allowed self u now) =
  match head (stored self u) with
  | None => 0
  | Some oldest => Z.max 0 (SW.window_size self - (now - oldest))
  end.
Proof.
  unfold SW.time_until_next_allowed, stored.
  by destruct (SW.user_messages self !! u) as [[|? ?]|].
Qed.

End SlidingWindowFacts.

(** * Basic facts about the throttling limiter *)

Section ThrottlingFacts.
Implicit Types (self : TH.t) (u : string).

Lemma th_can_send_state self u now :
  snd (TH.can_send_message self u now) = self.
Proof. done. Qed.

Lemma th_can_send_true self u now :
  fst (TH.can_send_message self u now) = true ↔
  TH.user_last_message self !! u = None ∨
  ∃ last, TH.user_last_message self !! u = Some last
          ∧ TH.min_interval self ≤ now - last.
Proof.
  unfold TH.can_send_message; simpl.
  destruct (TH.user_last_message self !! u) as [last|].
  - rewrite Z.geb_le. split.
    + intros H. right. exists last. split; [done | lia].
    + intros [?|(last' & [= <-] & H)]; [done | lia].
  - split; [by left | done].
Qed.

Lemma th_record_accept self u now stamp :
  fst (TH.can_send_message self u now) = true →
  TH.record_message self u now stamp =
  (true, TH.set_user_last_message self (<[u := stamp]> (TH.user_last_message self))).
Proof.
  unfold TH.record_message.
  destruct (TH.can_send_message self u now) as [ok self1] eqn:E.
  injection E as Eok <-. simpl. by intros ->.
Qed.

Lemma th_record_reject self u now stamp :
  fst (TH.can_send_message self u now) = false →
  TH.record_message self u now stamp = (false, self).
Proof.
  unfold TH.record_message.
  destruct (TH.can_send_message self u now) as [ok self1] eqn:E.
  injection E as Eok <-. simpl. by intros ->.
Qed.

Lemma th_record_result self u now stamp :
  fst (TH.record_message self u now stamp) = fst (TH.can_send_message self u now).
Proof.
  destruct (fst (TH.can_send_message self u now)) eqn:E.
  - by rewrite th_record_accept.
  - by rewrite th_record_reject.
Qed.

Lemma th_record_lookup_ne self u u' now stamp :
  u ≠ u' →
  TH.user_last_message (snd (TH.record_message self u now stamp)) !! u' =
  TH.user_last_message self !! u'.
Proof.
  intros Hne. destruct (fst (TH.can_send_message self u now)) eqn:E.
  - rewrite th_record_accept by done. simpl. by apply lookup_insert_ne.
  - by rewrite th_record_reject.
Qed.

Lemma th_record_min_interval self u now stamp :
  TH.min_interval (snd (TH.record_message self u now stamp)) = TH.min_interval self.
Proof.
  destruct (fst (TH.can_send_message self u now)) eqn:E.
  - by rewrite th_record_accept.
  - by rewrite th_record_reject.
Qed.

Lemma th_time_until_state self u now :
  snd (TH.time_until_next_allowed self u now) = self.
Proof.
  unfold TH.time_until_next_allowed.
  by destruct (TH.user_last_message self !! u).
Qed.

Lemma th_time_until_value self u now :
  fst (TH.time_until_next_allowed self u now) =
  match TH.user_last_message self !! u with
  | None => 0
  | Some last => Z.max 0 (TH.min_interval self - (now - last))
  end.
Proof.
  unfold TH.time_until_next_allowed.
  by destruct (TH.user_last_message self !! u).
Qed.

End ThrottlingFacts.

(** * The properties of the specification *)

(** C2. Throttling exactness.  A [record_message] call of the throttling
    limiter is accepted exactly when the user has no recorded timestamp or
    the time read by the call is at least [min_interval] after the recorded
    one.  Hence, once a call has been accepted and stored [stamp], a second
    call that reads the clock exactly [min_interval] later is accepted too
    (the boundary is inclusive), and one that reads it strictly earlier is
    rejected. *)
Theorem C2_throttling_exactness :
  (∀ (self : TH.t) (u : string) (now stamp : Z),
     fst (TH.record_message self u now stamp) = true ↔
     TH.user_last_message self !! u = None ∨
     ∃ last, TH.user_last_message self !! u = Some last
             ∧ TH.min_interval self ≤ now - last)
  ∧ (∀ (self : TH.t) (u : string) (now1 stamp1 now2 stamp2 : Z),
       fst (TH.record_message self u now1 stamp1) = true →
       let self1 := snd (TH.record_message self u now1 stamp1) in
       TH.user_last_message self1 !! u = Some stamp1
       ∧ (now2 - stamp1 = TH.min_interval self →
          fst (TH.record_message self1 u now2 stamp2) = true)
       ∧ (now2 - stamp1 < TH.min_interval self →
          fst (TH.record_message self1 u now2 stamp2) = false)).
Proof.
  split.
  - intros. rewrite th_record_result. apply th_can_send_true.
  - intros self u now1 stamp1 now2 stamp2 Hok self1.
    rewrite th_record_result in Hok.
    assert (TH.user_last_message self1 !! u = Some stamp1) as Hl.
    { unfold self1. rewrite th_record_accept by done. simpl.
      apply lookup_insert_eq. }
    assert (TH.min_interval self1 = TH.min_interval self) as HM
      by apply th_record_min_interval.
    split; [done|]. split; intros Hsep.
    + rewrite th_record_result. apply th_can_send_true.
      right. exists stamp1. split; [done | lia].
    + rewrite th_record_result.
      destruct (fst (TH.can_send_message self1 u now2)) eqn:E; [|done].
      apply th_can_send_true in E as [E|(last & E & Hge)]; [congruence|].
      rewrite Hl in E. injection E as <-. lia.
Qed.

(** Min interval 10: a first call at 0 is accepted, a second at 10 too. *)
Lemma C2_throttling_exactness_witness :
  let self := TH.Build 10 ∅ in
  let self1 := snd (TH.record_message self "1" 0 0) in
  TH.user_last_message self1 !! "1" = Some 0
  ∧ (10 - 0 = TH.min_interval self →
     fst (TH.record_message self1 "1" 10 10) = true)
  ∧ (9 - 0 < TH.min_interval self →
     fst (TH.record_message self1 "1" 9 9) = false).
Proof.
  intros self self1.
  assert (fst (TH.record_message self "1" 0 0) = true) as H0
    by (vm_compute; reflexivity).
  pose proof (proj2 C2_throttling_exactness self "1" 0 0 10 10 H0)
    as (H1 & H2 & _).
  pose proof (proj2 C2_throttling_exactness self "1" 0 0 9 9 H0)
    as (_ & _ & H3).
  exact (conj H1 (conj H2 H3)).
Defined.

(** C3. A rejected [record_message] changes nothing beyond the cleanup of
    [can_send_message].  Sliding window: the limiter left behind is the one
    [_cleanup_window] produces, so the user's deque is the pruned deque with
    nothing appended.  Throttling: the limiter is unchanged. *)
Theorem C3_rejected_record_no_mutation :
  (∀ (self : SW.t) (u : string) (now stamp : Z),
     fst (SW.record_message self u now stamp) = false →
     snd (SW.record_message self u now stamp) = snd (SW.can_send_message self u now)
     ∧ snd (SW.record_message self u now stamp) = SW._cleanup_window self u now
     ∧ stored (snd (SW.record_message self u now stamp)) u =
       SW.popleft_while (now - SW.window_size self) (stored self u))
  ∧ (∀ (self : TH.t) (u : string) (now stamp : Z),
       fst (TH.record_message self u now stamp) = false →
       snd (TH.record_message self u now stamp) = self).
Proof.
  split.
  - intros self u now stamp Hrej. rewrite record_result in Hrej.
    rewrite record_reject by done. simpl.
    split; [done|]. split; [done|]. apply cleanup_stored.
  - intros self u now stamp Hrej. rewrite th_record_result in Hrej.
    by rewrite th_record_reject.
Qed.

Lemma C3_rejected_record_no_mutation_witness :
  (let self := SW.Build 10 1 {[ "1" := [0; 3] ]} in
   snd (SW.record_message self "1" 12 12) = snd (SW.can_send_message self "1" 12)
   ∧ snd (SW.record_message self "1" 12 12) = SW._cleanup_window self "1" 12
   ∧ stored (snd (SW.record_message self "1" 12 12)) "1" =
     SW.popleft_while (12 - SW.window_size self) (stored self "1"))
  ∧ (let self := TH.Build 10 {[ "1" := 0 ]} in
     snd (TH.record_message self "1" 9 9) = self).
Proof.
  split.
  - apply (proj1 C3_rejected_record_no_mutation). vm_compute. reflexivity.
  - apply (proj2 C3_rejected_record_no_mutation). vm_compute. reflexivity.
Defined.

(** C5. The value of [time_until_next_allowed].  It is never negative.
    Sliding window: 0 when the user has no stored timestamp, otherwise
    [max 0 (window_size - (now - oldest))] for the oldest (leftmost) stored
    timestamp.  Throttling: 0 when the user was never recorded, otherwise
    [max 0 (min_interval - (now - last))]. *)
Theorem C5_time_until_next_allowed_value :
  (∀ (self : SW.t) (u : string) (now : Z),
     let wait := fst (SW.time_until_next_allowed self u now) in
     0 ≤ wait
     ∧ (stored self u = [] → wait = 0)
     ∧ (∀ oldest rest, stored self u = oldest :: rest →
          wait = Z.max 0 (SW.window_size self - (now - oldest))))
  ∧ (∀ (self : TH.t) (u : string) (now : Z),
       let wait := fst (TH.time_until_next_allowed self u now) in
       0 ≤ wait
       ∧ (TH.user_last_message self !! u = None → wait = 0)
       ∧ (∀ last, TH.user_last_message self !! u = Some last →
            wait = Z.max 0 (TH.min_interval self - (now - last)))).
Proof.
  split; intros self u now wait; subst wait.
  - rewrite time_until_value.
    destruct (stored self u) as [|x q]; simpl.
    + split; [done|]. split; [done|]. by intros ? ? [=].
    + split; [lia|]. split; [done|]. by intros ? ? [= <- <-].
  - rewrite th_time_until_value.
    destruct (TH.user_last_message self !! u) as [last|]; simpl.
    + split; [lia|]. split; [done|]. by intros ? [= <-].
    + split; [done|]. split; [done|]. by intros ? [=].
Qed.

(** C10. [time_until_next_allowed] leaves the limiter as it found it, in
    both classes.  In particular the sliding-window method does not prune:
    for a user whose stored timestamps are all expired at [now] it returns 0
    and the stale deque is still under the user's key afterwards. *)
Theorem C10_time_until_next_allowed_pure :
  (∀ (self : SW.t) (u : string) (now : Z),
     snd (SW.time_until_next_allowed self u now) = self)
  ∧ (∀ (self : TH.t) (u : string) (now : Z),
       snd (TH.time_until_next_allowed self u now) = self)
  ∧ (∀ (self : SW.t) (u : string) (now : Z) (q : list Z),
       SW.user_messages self !! u = Some q →
       q ≠ [] →
       Forall (λ x, x ≤ now - SW.window_size self) q →
       fst (SW.time_until_next_allowed self u now) = 0
       ∧ SW.user_messages (snd (SW.time_until_next_allowed self u now)) !! u
         = Some q).
Proof.
  split; [apply time_until_state|]. split; [apply th_time_until_state|].
  intros self u now q Hq Hne Hexp.
  rewrite time_until_state. split; [|done].
  rewrite time_until_value. unfold stored. rewrite Hq. simpl.
  destruct q as [|x q]; [done|]. simpl.
  apply Forall_cons in Hexp as [Hx _]. lia.
Qed.

Lemma C10_time_until_next_allowed_pure_witness :
  let self := SW.Build 10 2 {[ "1" := [0; 3] ]} in
  fst (SW.time_until_next_allowed self "1" 20) = 0
  ∧ SW.user_messages (snd (SW.time_until_next_allowed self "1" 20)) !! "1"
    = Some [0; 3].
Proof.
  apply (proj2 (proj2 C10_time_until_next_allowed_pure)
           (SW.Build 10 2 {[ "1" := [0; 3] ]}) "1" 20 [0; 3]).
  - vm_compute. reflexivity.
  - discriminate.
  - repeat constructor; simpl; lia.
Defined.

(** ** Runs of calls *)

Lemma sw_record_all_cons (self : SW.t) (u : string) (now stamp : Z)
    (reads : list (Z * Z)) :
  SW.record_all self u ((now, stamp) :: reads) =
  (fst (SW.record_message self u now stamp)
     :: fst (SW.record_all (snd (SW.record_message self u now stamp)) u reads),
   snd (SW.record_all (snd (SW.record_message self u now stamp)) u reads)).
Proof.
  simpl. destruct (SW.record_message self u now stamp) as [ok self1].
  simpl. by destruct (SW.record_all self1 u reads).
Qed.

Lemma sw_record_all_frame (self : SW.t) (u u' : string) (reads : list (Z * Z)) :
  u ≠ u' →
  let self' := snd (SW.record_all self u reads) in
  SW.user_messages self' !! u' = SW.user_messages self !! u'
  ∧ SW.window_size self' = SW.window_size self
  ∧ SW.max_requests self' = SW.max_requests self.
Proof.
  intros Hne. revert self.
  induction reads as [|[now stamp] reads IH]; intros self; cbv zeta; [done|].
  rewrite sw_record_all_cons. cbn [snd].
  destruct (IH (snd (SW.record_message self u now stamp))) as (H1 & H2 & H3).
  rewrite H1, H2, H3.
  by rewrite record_lookup_ne, record_window_size, record_max_requests.
Qed.

Lemma th_record_all_cons (self : TH.t) (u : string) (now stamp : Z)
    (reads : list (Z * Z)) :
  TH.record_all self u ((now, stamp) :: reads) =
  (fst (TH.record_message self u now stamp)
     :: fst (TH.record_all (snd (TH.record_message self u now stamp)) u reads),
   snd (TH.record_all (snd (TH.record_message self u now stamp)) u reads)).
Proof.
  simpl. destruct (TH.record_message self u now stamp) as [ok self1].
  simpl. by destruct (TH.record_all self1 u reads).
Qed.

Lemma th_record_all_frame (self : TH.t) (u u' : string) (reads : list (Z * Z)) :
  u ≠ u' →
  let self' := snd (TH.record_all self u reads) in
  TH.user_last_message self' !! u' = TH.user_last_message self !! u'
  ∧ TH.min_interval self' = TH.min_interval self.
Proof.
  intros Hne. revert self.
  induction reads as [|[now stamp] reads IH]; intros self; cbv zeta; [done|].
  rewrite th_record_all_cons. cbn [snd].
  destruct (IH (snd (TH.record_message self u now stamp))) as (H1 & H2).
  rewrite H1, H2.
  by rewrite th_record_lookup_ne, th_record_min_interval.
Qed.

(** C7. Independence across identities.  Whatever [record_message] calls are
    made for user [a] (accepted or not, at whatever times), the entry stored
    for a different user [b] is the same as before, [can_send_message] for
    [b] returns the same boolean, and leaves the same entry for [b]. *)
Theorem C7_identity_independence :
  (∀ (self : SW.t) (a b : string) (reads : list (Z * Z)) (now : Z),
     a ≠ b →
     let self' := snd (SW.record_all self a reads) in
     SW.user_messages self' !! b = SW.user_messages self !! b
     ∧ fst (SW.can_send_message self' b now) = fst (SW.can_send_message self b now)
     ∧ SW.user_messages (snd (SW.can_send_message self' b now)) !! b
       = SW.user_messages (snd (SW.can_send_message self b now)) !! b)
  ∧ (∀ (self : TH.t) (a b : string) (reads : list (Z * Z)) (now : Z),
       a ≠ b →
       let self' := snd (TH.record_all self a reads) in
       TH.user_last_message self' !! b = TH.user_last_message self !! b
       ∧ fst (TH.can_send_message self' b now) = fst (TH.can_send_message self b now)
       ∧ TH.user_last_message (snd (TH.can_send_message self' b now)) !! b
         = TH.user_last_message (snd (TH.can_send_message self b now)) !! b).
Proof.
  split.
  - intros self a b reads now Hne self'.
    destruct (sw_record_all_frame self a b reads Hne) as (Hl & HW & HN).
    fold self' in Hl, HW, HN.
    assert (stored self' b = stored self b) as Hst
      by (unfold stored; by rewrite Hl).
    split; [done|]. split.
    + by rewrite !can_send_result, Hst, HW, HN.
    + by rewrite !can_send_state, !cleanup_lookup, Hst, HW.
  - intros self a b reads now Hne self'.
    destruct (th_record_all_frame self a b reads Hne) as (Hl & HM).
    fold self' in Hl, HM.
    split; [done|].
    unfold TH.can_send_message; simpl. by rewrite Hl, HM.
Qed.

(** User "a" fills its window; user "b" is unaffected. *)
Lemma C7_identity_independence_witness :
  (let self := SW.Build 10 2 {[ "b" := [1] ]} in
   let self' := snd (SW.record_all self "a" [(2, 2); (3, 3); (4, 4)]) in
   SW.user_messages self' !! "b" = SW.user_messages self !! "b"
   ∧ fst (SW.can_send_message self' "b" 5) = fst (SW.can_send_message self "b" 5)
   ∧ SW.user_messages (snd (SW.can_send_message self' "b" 5)) !! "b"
     = SW.user_messages (snd (SW.can_send_message self "b" 5)) !! "b")
  ∧ (let self := TH.Build 10 {[ "b" := 1 ]} in
     let self' := snd (TH.record_all self "a" [(2, 2); (3, 3); (14, 14)]) in
     TH.user_last_message self' !! "b" = TH.user_last_message self !! "b"
     ∧ fst (TH.can_send_message self' "b" 5) = fst (TH.can_send_message self "b" 5)
     ∧ TH.user_last_message (snd (TH.can_send_message self' "b" 5)) !! "b"
       = TH.user_last_message (snd (TH.can_send_message self "b" 5)) !! "b").
Proof.
  split.
  - apply (proj1 C7_identity_independence). discriminate.
  - apply (proj2 C7_identity_independence). discriminate.
Defined.

(** C9. Idempotent [can_send_message].  Sliding window: after a first call
    at time [now] has pruned, any number of further calls at the same [now]
    leave the limiter exactly as the first call left it and return the
    boolean the first call returned.  Throttling: the call never changes the
    limiter, so every repetition returns the same boolean. *)
Theorem C9_can_send_idempotent :
  (∀ (self : SW.t) (u : string) (now : Z) (n : nat),
     let b1 := fst (SW.can_send_message self u now) in
     let self1 := snd (SW.can_send_message self u now) in
     SW.can_send_message self1 u now = (b1, self1)
     ∧ SW.run self1 (replicate n (SW.CanSend u now)) = self1
     ∧ SW.can_send_message (SW.run self1 (replicate n (SW.CanSend u now))) u now
       = (b1, self1))
  ∧ (∀ (self : TH.t) (u : string) (now : Z) (n : nat),
       let b1 := fst (TH.can_send_message self u now) in
       TH.can_send_message self u now = (b1, self)
       ∧ TH.run self (replicate n (TH.CanSend u now)) = self
       ∧ TH.can_send_message (TH.run self (replicate n (TH.CanSend u now))) u now
         = (b1, self)).
Proof.
  split.
  - intros self u now n b1 self1.
    assert (SW.can_send_message self1 u now = (b1, self1)) as Htwice.
    { unfold b1, self1. rewrite can_send_state.
      unfold SW.can_send_message at 1. by rewrite cleanup_idemp. }
    assert (SW.run self1 (replicate n (SW.CanSend u now)) = self1) as Hrun.
    { induction n as [|n IH]; [done|].
      change (SW.run (snd (SW.can_send_message self1 u now))
                (replicate n (SW.CanSend u now)) = self1).
      by rewrite Htwice. }
    by rewrite Hrun.
  - intros self u now n b1.
    assert (TH.run self (replicate n (TH.CanSend u now)) = self) as Hrun.
    { induction n as [|n IH]; [done|]. exact IH. }
    by rewrite Hrun.
Qed.

(** ** Filling the window *)

Lemma sw_record_all_params (self : SW.t) (u : string) (reads : list (Z * Z)) :
  SW.window_size (snd (SW.record_all self u reads)) = SW.window_size self
  ∧ SW.max_requests (snd (SW.record_all self u reads)) = SW.max_requests self.
Proof.
  revert self. induction reads as [|[now stamp] reads IH]; intros self; [done|].
  rewrite sw_record_all_cons. cbn [snd].
  destruct (IH (snd (SW.record_message self u now stamp))) as [-> ->].
  by rewrite record_window_size, record_max_requests.
Qed.

(** While every call is accepted and the first stamp of the run is still
    inside the window at every check, the stamps accumulate behind whatever
    is left of the older content [old] of the deque. *)
Lemma sw_record_all_accumulate (u : string) (reads : list (Z * Z)) :
  ∀ (self : SW.t) (old acc : list Z) (first : Z),
    stored self u = old ++ acc →
    head (acc ++ reads.*2) = Some first →
    (∀ now stamp, (now, stamp) ∈ reads → now - SW.window_size self < first) →
    fst (SW.record_all self u reads) = replicate (length reads) true →
    let self' := snd (SW.record_all self u reads) in
    (∃ old', stored self' u = old' ++ acc ++ reads.*2)
    ∧ (reads ≠ [] → Z.of_nat (length (stored self' u)) ≤ SW.max_requests self).
Proof.
  induction reads as [|[now stamp] reads IH];
    intros self old acc first Hst Hhd Hin Hall; cbv zeta.
  - simpl. split; [|done]. exists old. by rewrite app_nil_r.
  - rewrite sw_record_all_cons in Hall |- *. cbn [fst snd] in Hall |- *.
    simpl in Hall. injection Hall as Hok Hall.
    rewrite record_result in Hok.
    pose proof (record_stored self u now stamp) as Hst1.
    rewrite Hok in Hst1. cbv zeta in Hst1.
    assert (Z.of_nat (length (SW.popleft_while (now - SW.window_size self)
                                (stored self u))) < SW.max_requests self) as Hlen.
    { rewrite can_send_result in Hok. by apply Z.ltb_lt. }
    assert (∃ old1, SW.popleft_while (now - SW.window_size self) (stored self u)
                    = old1 ++ acc) as [old1 Hprune].
    { rewrite Hst. destruct acc as [|x acc].
      - rewrite app_nil_r. eexists. by rewrite app_nil_r.
      - injection Hhd as ->.
        destruct (popleft_while_app (now - SW.window_size self) old first acc)
          as (old1 & Heq & _); [|by exists old1].
        apply (Hin now stamp). by left. }
    set (self1 := snd (SW.record_message self u now stamp)) in *.
    assert (SW.window_size self1 = SW.window_size self) as HW
      by apply record_window_size.
    assert (SW.max_requests self1 = SW.max_requests self) as HN
      by apply record_max_requests.
    destruct (IH self1 old1 (acc ++ [stamp]) first) as [[old' Hfin] Hbound].
    + rewrite Hst1, Hprune. by rewrite app_assoc.
    + rewrite <- app_assoc. simpl. exact Hhd.
    + intros now' stamp' Hin'. rewrite HW. apply (Hin now' stamp'). by right.
    + exact Hall.
    + split.
      * exists old'. rewrite Hfin. by rewrite <- !app_assoc.
      * intros _. destruct reads as [|r reads].
        -- simpl. fold self1. rewrite Hst1, length_app. simpl. lia.
        -- rewrite <- HN. by apply Hbound.
Qed.

(** C1. Window correctness.  Take a sliding-window limiter with
    [max_requests = N >= 1] and [window_size = W] in any state, and [N]
    [record_message] calls for one user that are all accepted, every clock
    reading of which lies in one trailing interval [(e - W, e]].  Then the
    user's deque holds exactly the [N] stamps; a further call whose check
    time is less than [W] after the first stamp is rejected; and a further
    call whose check time is at least [W] after the first stamp (the first
    stamp is then expired, the comparison being [<=]) is accepted. *)
Theorem C1_window_correctness :
  ∀ (self : SW.t) (u : string) (reads : list (Z * Z)) (first e : Z),
    1 ≤ SW.max_requests self →
    Z.of_nat (length reads) = SW.max_requests self →
    fst (SW.record_all self u reads) = replicate (length reads) true →
    head (reads.*2) = Some first →
    (∀ now stamp, (now, stamp) ∈ reads →
       e - SW.window_size self < now ≤ e ∧ e - SW.window_size self < stamp ≤ e) →
    let self' := snd (SW.record_all self u reads) in
    stored self' u = reads.*2
    ∧ (∀ now stamp, now - first < SW.window_size self →
         fst (SW.record_message self' u now stamp) = false)
    ∧ (∀ now stamp, SW.window_size self ≤ now - first →
         fst (SW.record_message self' u now stamp) = true).
Proof.
  intros self u reads first e HN Hlen Hall Hhd Hwin self'.
  assert (first ∈ reads.*2) as Hfirst.
  { destruct (reads.*2) as [|x l]; [done|]. injection Hhd as ->. by left. }
  apply list_elem_of_fmap in Hfirst as ([now0 stamp0] & Heq & Hin0).
  simpl in Heq. destruct (Hwin _ _ Hin0) as [_ Hf]. rewrite <- Heq in Hf.
  clear Heq Hin0 now0 stamp0.
  destruct (sw_record_all_accumulate u reads self (stored self u) [] first)
    as [[old' Hfin] Hbound]; [by rewrite app_nil_r|done| |done|].
  { intros now stamp Hin. destruct (Hwin _ _ Hin) as [Hn _]. lia. }
  fold self' in Hfin, Hbound. simpl in Hfin.
  assert (reads ≠ []) as Hne by (intros ->; simpl in *; lia).
  specialize (Hbound Hne).
  assert (old' = []) as ->.
  { rewrite Hfin, length_app, length_fmap in Hbound.
    destruct old'; [done|]. simpl in Hbound. lia. }
  simpl in Hfin.
  destruct (sw_record_all_params self u reads) as [HW HM].
  fold self' in HW, HM.
  split; [done|].
  destruct (reads.*2) as [|x rest] eqn:Hst; [done|].
  injection Hhd as ->.
  assert (length (first :: rest) = length reads) as Hl
    by (by rewrite <- Hst, length_fmap).
  split; intros now stamp Hnow; rewrite record_result, can_send_result, Hfin, HW, HM.
  - rewrite popleft_while_fresh by (simpl; lia).
    apply Z.ltb_ge. rewrite Hl. lia.
  - simpl. destruct (Z.leb_spec first (now - SW.window_size self)); [|lia].
    apply Z.ltb_lt. pose proof (popleft_while_length (now - SW.window_size self) rest).
    simpl in Hl. lia.
Qed.

(** Window 10, two requests: stamps 0 and 3 fill the window; a third call
    at 9 is rejected, one at 10 is accepted. *)
Lemma C1_window_correctness_witness :
  let self := SW.Build 10 2 ∅ in
  let self' := snd (SW.record_all self "1" [(0, 0); (3, 3)]) in
  stored self' "1" = [0; 3]
  ∧ fst (SW.record_message self' "1" 9 9) = false
  ∧ fst (SW.record_message self' "1" 10 10) = true.
Proof.
  intros self.
  destruct (C1_window_correctness self "1" [(0, 0); (3, 3)] 0 3)
    as (Hst & Hrej & Hacc).
  - simpl. lia.
  - reflexivity.
  - vm_compute. reflexivity.
  - reflexivity.
  - intros now stamp Hin. simpl.
    apply elem_of_cons in Hin as [[= -> ->]|Hin]; [lia|].
    apply elem_of_cons in Hin as [[= -> ->]|Hin]; [lia|].
    by apply elem_of_nil in Hin.
  - split; [exact Hst|]. split; [apply Hrej | apply Hacc]; simpl; lia.
Defined.

(** ** Reachable states of the sliding-window limiter *)

Section SlidingWindowRuns.
Implicit Types (self : SW.t) (u : string) (c : SW.call) (calls : list SW.call).

Lemma stored_lookup self u q :
  SW.user_messages self !! u = Some q → stored self u = q.
Proof. unfold stored. by intros ->. Qed.

Lemma record_lookup self u now stamp :
  SW.user_messages (snd (SW.record_message self u now stamp)) !! u =
  let q := SW.popleft_while (now - SW.window_size self) (stored self u) in
  if fst (SW.can_send_message self u now) then Some (q ++ [stamp])
  else match q with [] => None | _ => Some q end.
Proof.
  destruct (fst (SW.can_send_message self u now)) eqn:E; cbv zeta.
  - rewrite record_accept by done. simpl. apply lookup_insert_eq.
  - rewrite record_reject by done. cbn [snd]. rewrite cleanup_lookup.
    by destruct (SW.popleft_while _ _).
Qed.

Lemma run_snoc self calls c :
  SW.run self (calls ++ [c]) = SW.step (SW.run self calls) c.
Proof. unfold SW.run. by rewrite fold_left_app. Qed.

Lemma run_app self calls calls' :
  SW.run self (calls ++ calls') = SW.run (SW.run self calls) calls'.
Proof. unfold SW.run. by rewrite fold_left_app. Qed.

Lemma step_window_size self c :
  SW.window_size (SW.step self c) = SW.window_size self.
Proof.
  destruct c; simpl.
  - apply cleanup_window_size.
  - apply record_window_size.
  - by rewrite time_until_state.
Qed.

Lemma step_max_requests self c :
  SW.max_requests (SW.step self c) = SW.max_requests self.
Proof.
  destruct c; simpl.
  - apply cleanup_max_requests.
  - apply record_max_requests.
  - by rewrite time_until_state.
Qed.

Lemma run_params self calls :
  SW.window_size (SW.run self calls) = SW.window_size self
  ∧ SW.max_requests (SW.run self calls) = SW.max_requests self.
Proof.
  induction calls as [|c calls IH] using rev_ind; [done|].
  rewrite run_snoc, step_window_size, step_max_requests. exact IH.
Qed.

(** A call that does not clean [u] leaves the entry of [u] alone. *)
Lemma step_lookup_ne self c u :
  SW.cleanup_time u c = None →
  SW.user_messages (SW.step self c) !! u = SW.user_messages self !! u.
Proof.
  destruct c as [u' now|u' now stamp|u' now]; simpl.
  - destruct (decide (u' = u)); [done|]. intros _. by apply cleanup_lookup_ne.
  - destruct (decide (u' = u)); [done|]. intros _. by apply record_lookup_ne.
  - intros _. by rewrite time_until_state.
Qed.

Lemma step_wf self c : sw_wf self → sw_wf (SW.step self c).
Proof.
  intros Hwf u q Hq. rewrite step_max_requests.
  destruct (SW.cleanup_time u c) as [now'|] eqn:Ec.
  2:{ rewrite step_lookup_ne in Hq by done. exact (Hwf u q Hq). }
  assert (∀ b, Z.of_nat (length (SW.popleft_while b (stored self u)))
               ≤ SW.max_requests self
               ∨ SW.popleft_while b (stored self u) = []) as Hpr.
  { intros b. unfold stored.
    destruct (SW.user_messages self !! u) as [q0|] eqn:E0; simpl; [|by right].
    left. pose proof (popleft_while_length b q0).
    destruct (Hwf u q0 E0). lia. }
  destruct c as [u' now|u' now stamp|u' now]; simpl in Ec, Hq; [| |done].
  - destruct (decide (u' = u)) as [->|]; [|done].
    rewrite cleanup_lookup in Hq.
    destruct (Hpr (now - SW.window_size self)) as [Hle|Hnil].
    + destruct (SW.popleft_while _ _); [done|]. by injection Hq as <-.
    + by rewrite Hnil in Hq.
  - destruct (decide (u' = u)) as [->|]; [|done].
    rewrite record_lookup in Hq. cbv zeta in Hq.
    destruct (fst (SW.can_send_message self u now)) eqn:Eok.
    + injection Hq as <-. rewrite can_send_result in Eok.
      apply Z.ltb_lt in Eok. rewrite length_app. simpl.
      split; [by destruct (SW.popleft_while _ _) | lia].
    + destruct (Hpr (now - SW.window_size self)) as [Hle|Hnil].
      * destruct (SW.popleft_while _ _); [done|]. by injection Hq as <-.
      * by rewrite Hnil in Hq.
Qed.

Lemma run_wf self calls : sw_wf self → sw_wf (SW.run self calls).
Proof.
  intros Hwf. induction calls as [|c calls IH] using rev_ind; [done|].
  rewrite run_snoc. by apply step_wf.
Qed.

Lemma init_wf W N : sw_wf (SW.Build W N ∅).
Proof. intros u q Hq. simpl in Hq. by rewrite lookup_empty in Hq. Qed.

(** On such a state a rejected check has pruned nothing: the deque was
    full before and is full after. *)
Lemma reject_prunes_nothing self u now :
  sw_wf self →
  fst (SW.can_send_message self u now) = false →
  SW._cleanup_window self u now = self.
Proof.
  intros Hwf Hrej. rewrite can_send_result in Hrej. apply Z.ltb_ge in Hrej.
  apply cleanup_noop. unfold stored in Hrej.
  destruct (SW.user_messages self !! u) as [q|] eqn:E; [|done].
  destruct (Hwf u q E) as [Hne Hlen]. simpl in Hrej.
  destruct q as [|x q]; [done|]. simpl in Hrej.
  destruct (Z.leb_spec x (now - SW.window_size self)); [|done].
  pose proof (popleft_while_length (now - SW.window_size self) q).
  simpl in Hlen. lia.
Qed.

End SlidingWindowRuns.

(** ** The history invariant under a non-decreasing clock *)

Section SlidingWindowHistory.
Implicit Types (self : SW.t) (u : string) (c : SW.call) (calls : list SW.call).

Lemma clock_snoc calls c :
  SW.clock (calls ++ [c]) = SW.clock calls ++ SW.readings c.
Proof.
  unfold SW.clock. rewrite map_app, concat_app. simpl. by rewrite app_nil_r.
Qed.

Lemma last_cleanup_snoc u calls c :
  SW.last_cleanup u (calls ++ [c]) =
  match SW.cleanup_time u c with
  | Some now => Some now
  | None => SW.last_cleanup u calls
  end.
Proof. unfold SW.last_cleanup. by rewrite fold_left_app. Qed.

Lemma popleft_while_keeps_sorted bound q :
  StronglySorted Z.le q → StronglySorted Z.le (SW.popleft_while bound q).
Proof.
  destruct (popleft_while_split bound q) as (pre & Heq & _).
  rewrite Heq at 1. apply StronglySorted_app_1_r.
Qed.

Lemma popleft_while_subset bound q t :
  t ∈ SW.popleft_while bound q → t ∈ q.
Proof.
  destruct (popleft_while_split bound q) as (pre & Heq & _).
  rewrite Heq at 2. rewrite elem_of_app. by right.
Qed.

(** The pruned deque of a user, given the invariant before the call. *)
Lemma pruned_facts W calls self u bound :
  sw_hist_inv W calls self →
  let q := SW.popleft_while bound (stored self u) in
  StronglySorted Z.le q
  ∧ (∀ t, t ∈ q → t ∈ SW.clock calls)
  ∧ Forall (λ t, bound < t) q.
Proof.
  intros Hinv q.
  assert (StronglySorted Z.le (stored self u)
          ∧ ∀ t, t ∈ stored self u → t ∈ SW.clock calls) as [Hs Hc].
  { unfold stored. destruct (SW.user_messages self !! u) as [q0|] eqn:E; simpl.
    - destruct (Hinv u q0 E) as (? & ? & _). done.
    - split; [constructor | by intros t Ht%elem_of_nil]. }
  split; [by apply popleft_while_keeps_sorted|].
  split; [|by apply popleft_while_sorted].
  intros t Ht. by apply Hc, (popleft_while_subset bound).
Qed.

Lemma step_hist_inv calls self c :
  StronglySorted Z.le (SW.clock (calls ++ [c])) →
  sw_hist_inv (SW.window_size self) calls self →
  sw_hist_inv (SW.window_size self) (calls ++ [c]) (SW.step self c).
Proof.
  rewrite clock_snoc. intros (Hle & _ & Hrd)%StronglySorted_app Hinv u q Hq.
  rewrite clock_snoc, last_cleanup_snoc.
  destruct (SW.cleanup_time u c) as [now'|] eqn:Ec.
  2:{ rewrite step_lookup_ne in Hq by done.
      destruct (Hinv u q Hq) as (Hs & Hc & Hl).
      split; [done|]. split; [|done].
      intros t Ht. apply elem_of_app. left. by apply Hc. }
  set (W := SW.window_size self) in *.
  destruct c as [u' now|u' now stamp|u' now]; simpl in Ec, Hq, Hrd; [| |done];
    destruct (decide (u' = u)) as [->|]; [|done| |done];
    injection Ec as <-;
    destruct (pruned_facts W calls self u (now - W) Hinv) as (Hs & Hc & Hf).
  - rewrite cleanup_lookup in Hq. fold W in Hq.
    destruct (SW.popleft_while (now - W) (stored self u)) as [|x q'] eqn:Ep;
      [done|]. injection Hq as <-.
    split; [done|]. split.
    + intros t Ht. apply elem_of_app. left. by apply Hc.
    + exists now. done.
  - rewrite record_lookup in Hq. cbv zeta in Hq. fold W in Hq.
    destruct (fst (SW.can_send_message self u now)).
    + injection Hq as <-.
      apply StronglySorted_cons in Hrd as [Hns _].
      apply Forall_cons in Hns as [Hns _].
      split; [|split].
      * apply StronglySorted_app_2; [|done|repeat constructor].
        intros x1 x2 Hx1 ->%list_elem_of_singleton.
        apply Hle; [by apply Hc | simpl; set_solver].
      * intros t [Ht| ->%list_elem_of_singleton]%elem_of_app;
          apply elem_of_app; [left; by apply Hc | right; set_solver].
      * exists now. split; [done|]. intros HW.
        apply Forall_app. split; [done|]. repeat constructor. lia.
    + destruct (SW.popleft_while (now - W) (stored self u)) as [|x q'] eqn:Ep;
        [done|]. injection Hq as <-.
      split; [done|]. split.
      * intros t Ht. apply elem_of_app. left. by apply Hc.
      * exists now. done.
Qed.

Lemma run_hist_inv W N calls :
  Sorted Z.le (SW.clock calls) →
  sw_hist_inv W calls (SW.run (SW.Build W N ∅) calls).
Proof.
  intros Hclock%Sorted_StronglySorted; [|apply _].
  induction calls as [|c calls IH] using rev_ind.
  - intros u q Hq. simpl in Hq. by rewrite lookup_empty in Hq.
  - rewrite run_snoc.
    pose proof (proj1 (run_params (SW.Build W N ∅) calls)) as HW. simpl in HW.
    pose proof (step_hist_inv calls (SW.run (SW.Build W N ∅) calls) c Hclock)
      as Hstep.
    rewrite HW in Hstep. apply Hstep, IH.
    rewrite clock_snoc in Hclock. by apply StronglySorted_app_1_l in Hclock.
Qed.

End SlidingWindowHistory.

(** C4. Invariant of the sliding-window limiter.  Start from a freshly
    constructed limiter and make any calls of the three methods under a
    non-decreasing clock.  Then every user in the dictionary has a non-empty
    deque (an emptied deque has its key deleted), the deque is
    non-decreasing, and the user has been cleaned at some last time [c];
    provided [window_size > 0], every stored timestamp [t] satisfies
    [t > c - window_size]. *)
Theorem C4_sliding_window_invariant :
  ∀ (W N : Z) (self0 : SW.t) (calls : list SW.call),
    SW.__init__ W N = Returned self0 →
    Sorted Z.le (SW.clock calls) →
    ∀ (u : string) (q : list Z),
      SW.user_messages (SW.run self0 calls) !! u = Some q →
      q ≠ []
      ∧ Sorted Z.le q
      ∧ ∃ c, SW.last_cleanup u calls = Some c
             ∧ (0 < W → Forall (λ t, t > c - W) q).
Proof.
  intros W N self0 calls [= <-] Hclock u q Hq.
  destruct (run_wf (SW.Build W N ∅) calls (init_wf W N) u q Hq) as [Hne _].
  destruct (run_hist_inv W N calls Hclock u q Hq) as (Hs & _ & c & Hc & Hf).
  split; [done|]. split; [by apply StronglySorted_Sorted|].
  exists c. split; [done|]. intros HW.
  eapply Forall_impl; [exact (Hf HW)|]. simpl. lia.
Qed.

Lemma C4_sliding_window_invariant_witness :
  let calls := [SW.RecordMsg "1" 0 0; SW.CanSend "1" 5; SW.RecordMsg "1" 6 7;
                SW.TimeUntil "1" 8; SW.RecordMsg "2" 9 9] in
  [0; 7] ≠ []
  ∧ Sorted Z.le [0; 7]
  ∧ ∃ c, SW.last_cleanup "1" calls = Some c
         ∧ (0 < 10 → Forall (λ t, t > c - 10) [0; 7]).
Proof.
  intros calls.
  refine (C4_sliding_window_invariant 10 2 (SW.Build 10 2 ∅) calls eq_refl
            _ "1" [0; 7] _).
  - repeat constructor; simpl; lia.
  - vm_compute. reflexivity.
Defined.

(** With [window_size = 0] the timestamp a call appends is not younger than
    the cleanup time of that very call minus the window. *)
Lemma C4_window_zero_counterexample :
  let calls := [SW.RecordMsg "1" 5 5] in
  let self := SW.run (SW.Build 0 1 ∅) calls in
  SW.__init__ 0 1 = Returned (SW.Build 0 1 ∅)
  ∧ Sorted Z.le (SW.clock calls)
  ∧ SW.user_messages self !! "1" = Some [5]
  ∧ SW.last_cleanup "1" calls = Some 5
  ∧ ¬ Forall (λ t, t > 5 - SW.window_size self) [5].
Proof.
  cbv zeta. split; [reflexivity|]. split; [repeat constructor; simpl; lia|].
  split; [vm_compute; reflexivity|]. split; [reflexivity|].
  intros H. apply Forall_cons in H as [H _]. vm_compute in H. discriminate.
Qed.

(** ** Calls that leave a user's history alone *)

Lemma sw_quiet_step (u : string) (self : SW.t) (c : SW.call) :
  sw_wf self →
  sw_quiet_call u self c = true →
  stored (SW.step self c) u = stored self u.
Proof.
  intros Hwf Hq. destruct c as [u' now|u' now stamp|u' now]; simpl in *.
  - destruct (decide (u' = u)) as [->|Hne].
    + by apply bool_decide_eq_true in Hq.
    + unfold stored. by rewrite cleanup_lookup_ne.
  - destruct (decide (u' = u)) as [->|Hne].
    + apply negb_true_iff in Hq. rewrite record_result in Hq.
      rewrite record_reject by done. simpl.
      by rewrite reject_prunes_nothing.
    + unfold stored. by rewrite record_lookup_ne.
  - by rewrite time_until_state.
Qed.

Lemma sw_quiet_run (u : string) (calls : list SW.call) :
  ∀ self : SW.t,
    sw_wf self →
    sw_quiet u self calls = true →
    stored (SW.run self calls) u = stored self u.
Proof.
  induction calls as [|c calls IH]; intros self Hwf Hq; [done|].
  simpl in Hq. apply andb_true_iff in Hq as [Hc Hq].
  change (SW.run self (c :: calls)) with (SW.run (SW.step self c) calls).
  rewrite IH; [by apply sw_quiet_step | by apply step_wf | done].
Qed.

Lemma th_quiet_step (u : string) (self : TH.t) (c : TH.call) :
  th_quiet_call u self c = true →
  TH.user_last_message (TH.step self c) !! u = TH.user_last_message self !! u
  ∧ TH.min_interval (TH.step self c) = TH.min_interval self.
Proof.
  intros Hq. destruct c as [u' now|u' now stamp|u' now]; simpl in *.
  - done.
  - rewrite th_record_min_interval. split; [|done].
    destruct (decide (u' = u)) as [->|Hne].
    + apply negb_true_iff in Hq. rewrite th_record_result in Hq.
      by rewrite th_record_reject.
    + by apply th_record_lookup_ne.
  - by rewrite th_time_until_state.
Qed.

Lemma th_quiet_run (u : string) (calls : list TH.call) :
  ∀ self : TH.t,
    th_quiet u self calls = true →
    TH.user_last_message (TH.run self calls) !! u = TH.user_last_message self !! u
    ∧ TH.min_interval (TH.run self calls) = TH.min_interval self.
Proof.
  induction calls as [|c calls IH]; intros self Hq; [done|].
  simpl in Hq. apply andb_true_iff in Hq as [Hc Hq].
  change (TH.run self (c :: calls)) with (TH.run (TH.step self c) calls).
  destruct (IH _ Hq) as [-> ->]. by apply th_quiet_step.
Qed.

(** C8. Monotone recovery.  Between two queries at times [now1 <= now2] let
    any calls happen, as long as none of them is an accepted
    [record_message] for the user and, for the sliding-window limiter, none
    is a [can_send_message] for the user that pops a timestamp.  Then the
    second [time_until_next_allowed] is not larger than the first, and it is
    exactly 0 once [now2] is at or after the moment the oldest stored
    timestamp expires (resp. [min_interval] after the last recorded one), or
    when nothing is stored.  Sliding window states are those reachable from
    a fresh limiter. *)
Theorem C8_monotone_recovery :
  (∀ (W N : Z) (history between : list SW.call) (u : string) (now1 now2 : Z),
     let self := SW.run (SW.Build W N ∅) history in
     let self' := SW.run self between in
     sw_quiet u self between = true →
     now1 ≤ now2 →
     fst (SW.time_until_next_allowed self' u now2)
       ≤ fst (SW.time_until_next_allowed self u now1)
     ∧ match head (stored self u) with
       | None => fst (SW.time_until_next_allowed self' u now2) = 0
       | Some oldest =>
           oldest + W ≤ now2 → fst (SW.time_until_next_allowed self' u now2) = 0
       end)
  ∧ (∀ (self : TH.t) (between : list TH.call) (u : string) (now1 now2 : Z),
       let self' := TH.run self between in
       th_quiet u self between = true →
       now1 ≤ now2 →
       fst (TH.time_until_next_allowed self' u now2)
         ≤ fst (TH.time_until_next_allowed self u now1)
       ∧ match TH.user_last_message self !! u with
         | None => fst (TH.time_until_next_allowed self' u now2) = 0
         | Some last =>
             last + TH.min_interval self ≤ now2 →
             fst (TH.time_until_next_allowed self' u now2) = 0
         end).
Proof.
  split.
  - intros W N history between u now1 now2 self self' Hq Hnow.
    assert (sw_wf self) as Hwf by apply run_wf, init_wf.
    assert (stored self' u = stored self u) as Hst by by apply sw_quiet_run.
    assert (SW.window_size self' = W ∧ SW.window_size self = W) as [HW' HW].
    { unfold self', self. by rewrite !(proj1 (run_params _ _)). }
    rewrite !time_until_value, Hst, HW', HW.
    destruct (head (stored self u)) as [oldest|]; [|done].
    split; lia.
  - intros self between u now1 now2 self' Hq Hnow.
    destruct (th_quiet_run u between self Hq) as [Hl HM]. fold self' in Hl, HM.
    rewrite !th_time_until_value, Hl, HM.
    destruct (TH.user_last_message self !! u) as [last|]; [|done].
    split; lia.
Qed.

(** Two stamps in a window of 10, then a rejected attempt and a query of
    another kind; the wait shrinks from 4 to 1 and is 0 at time 10. *)
Lemma C8_monotone_recovery_witness :
  (let self := SW.run (SW.Build 10 2 ∅)
                 [SW.RecordMsg "1" 0 0; SW.RecordMsg "1" 5 5] in
   let between := [SW.RecordMsg "1" 7 7; SW.TimeUntil "1" 8; SW.CanSend "2" 8] in
   fst (SW.time_until_next_allowed (SW.run self between) "1" 9)
     ≤ fst (SW.time_until_next_allowed self "1" 6))
  ∧ (let self := TH.Build 10 {[ "1" := 0 ]} in
     let between := [TH.RecordMsg "1" 7 7; TH.CanSend "1" 8] in
     fst (TH.time_until_next_allowed (TH.run self between) "1" 9)
       ≤ fst (TH.time_until_next_allowed self "1" 6)).
Proof.
  split.
  - apply (proj1 C8_monotone_recovery 10 2
             [SW.RecordMsg "1" 0 0; SW.RecordMsg "1" 5 5]
             [SW.RecordMsg "1" 7 7; SW.TimeUntil "1" 8; SW.CanSend "2" 8]
             "1" 6 9); [vm_compute; reflexivity | lia].
  - apply (proj2 C8_monotone_recovery (TH.Build 10 {[ "1" := 0 ]})
             [TH.RecordMsg "1" 7 7; TH.CanSend "1" 8] "1" 6 9);
      [vm_compute; reflexivity | lia].
Defined.

(** Window 10, two requests, stamps 0 and 8.  At time 9 the wait is 1.  A
    [can_send_message] at time 10 pops the stamp 0 and returns [true]; no
    event has been accepted, yet the wait at time 10 is 8. *)
Lemma C8_can_send_prunes_counterexample :
  let self := SW.run (SW.Build 10 2 ∅)
                [SW.RecordMsg "1" 0 0; SW.RecordMsg "1" 8 8] in
  let wait9 := fst (SW.time_until_next_allowed self "1" 9) in
  let '(free, self') := SW.can_send_message self "1" 10 in
  let wait10 := fst (SW.time_until_next_allowed self' "1" 10) in
  stored self "1" = [0; 8] ∧ wait9 = 1 ∧ free = true ∧ wait10 = 8
  ∧ ¬ (wait10 ≤ wait9).
Proof. vm_compute. repeat split; try reflexivity. intros H. by apply H. Qed.

(** C6. Construction.  Neither constructor checks its arguments: for every
    configuration it returns a limiter with exactly these parameters and an
    empty dictionary, and never raises.  The limiter obtained then behaves
    as follows: with [max_requests < 1] every [record_message] is rejected;
    with [window_size <= 0] and [max_requests >= 1], or with
    [min_interval <= 0], every [record_message] whose check time is not
    before the timestamps stored for the user is accepted. *)
Theorem C6_construction_unchecked :
  (∀ W N : Z, SW.__init__ W N = Returned (SW.Build W N ∅))
  ∧ (∀ M : Z, TH.__init__ M = Returned (TH.Build M ∅))
  ∧ (∀ (self : SW.t) (u : string) (now stamp : Z),
       SW.max_requests self < 1 →
       fst (SW.record_message self u now stamp) = false)
  ∧ (∀ (self : SW.t) (u : string) (now stamp : Z),
       SW.window_size self ≤ 0 → 1 ≤ SW.max_requests self →
       Forall (λ t, t ≤ now) (stored self u) →
       fst (SW.record_message self u now stamp) = true)
  ∧ (∀ (self : TH.t) (u : string) (now stamp : Z),
       TH.min_interval self ≤ 0 →
       (∀ last, TH.user_last_message self !! u = Some last → last ≤ now) →
       fst (TH.record_message self u now stamp) = true).
Proof.
  split; [done|]. split; [done|]. split; [|split].
  - intros self u now stamp HN.
    rewrite record_result, can_send_result. apply Z.ltb_ge. lia.
  - intros self u now stamp HW HN Hold.
    rewrite record_result, can_send_result. apply Z.ltb_lt.
    assert (SW.popleft_while (now - SW.window_size self) (stored self u) = [])
      as ->; [|simpl; lia].
    induction Hold as [|x q Hx Hq IH]; simpl; [done|].
    destruct (Z.leb_spec x (now - SW.window_size self)); [done | lia].
  - intros self u now stamp HM Hlast.
    rewrite th_record_result. apply th_can_send_true.
    destruct (TH.user_last_message self !! u) as [last|] eqn:E; [|by left].
    right. exists last. split; [done|]. specialize (Hlast last eq_refl). lia.
Qed.

Lemma C6_construction_unchecked_witness :
  fst (SW.record_message (SW.Build 10 0 ∅) "1" 0 0) = false
  ∧ fst (SW.record_message (SW.Build (-1) 1 {[ "1" := [0; 1] ]}) "1" 1 1) = true
  ∧ fst (TH.record_message (TH.Build (-1) {[ "1" := 1 ]}) "1" 1 1) = true.
Proof.
  destruct C6_construction_unchecked as (_ & _ & Hdeny & Hallow & Hthr).
  split; [|split].
  - apply Hdeny. simpl. lia.
  - apply Hallow; [simpl; lia | simpl; lia |].
    vm_compute. repeat constructor; discriminate.
  - apply Hthr; [simpl; lia |].
    intros last Hl. vm_compute in Hl. injection Hl as <-. lia.
Defined.

(** Constructing with [max_requests = 0], with a negative window, or with a
    negative interval returns a limiter; nothing is raised. *)
Lemma C6_invalid_configuration_accepted :
  (¬ ∃ exn, SW.__init__ 10 0 = Raised exn)
  ∧ (¬ ∃ exn, SW.__init__ (-1) 1 = Raised exn)
  ∧ (¬ ∃ exn, TH.__init__ (-1) = Raised exn).
Proof. repeat split; intros [exn H]; discriminate. Qed.

(** * Further properties of the two classes *)

(** ** Pruning composes *)

Lemma popleft_while_absorb (b1 b2 : Z) (q : list Z) :
  b1 ≤ b2 →
  SW.popleft_while b2 (SW.popleft_while b1 q) = SW.popleft_while b2 q.
Proof.
  intros Hb. induction q as [|x q IH]; simpl; [done|].
  destruct (Z.leb_spec x b1) as [Hx|Hx].
  - destruct (Z.leb_spec x b2); [done | lia].
  - done.
Qed.

Lemma cleanup_absorb (self : SW.t) (u : string) (now1 now2 : Z) :
  now1 ≤ now2 →
  SW._cleanup_window (SW._cleanup_window self u now1) u now2 =
  SW._cleanup_window self u now2.
Proof.
  intros Hnow. apply sw_ext.
  - by rewrite !cleanup_window_size.
  - by rewrite !cleanup_max_requests.
  - apply map_eq. intros u'. destruct (decide (u = u')) as [<-|Hne].
    + rewrite !cleanup_lookup, cleanup_stored, cleanup_window_size.
      rewrite popleft_while_absorb by lia. done.
    + by rewrite !cleanup_lookup_ne.
Qed.

(** X1. A [can_send_message] at an earlier time is absorbed by a later call for
    the same user: the later [can_send_message] or [record_message] returns
    the same boolean and leaves the same limiter as if the earlier call had
    not been made. *)
Theorem X1_can_send_absorbed_by_later_call :
  ∀ (self : SW.t) (u : string) (now1 now2 stamp : Z),
    now1 ≤ now2 →
    let self1 := snd (SW.can_send_message self u now1) in
    SW.can_send_message self1 u now2 = SW.can_send_message self u now2
    ∧ SW.record_message self1 u now2 stamp = SW.record_message self u now2 stamp.
Proof.
  intros self u now1 now2 stamp Hnow self1.
  assert (SW.can_send_message self1 u now2 = SW.can_send_message self u now2)
    as Hcs.
  { unfold self1. rewrite can_send_state. unfold SW.can_send_message.
    by rewrite cleanup_absorb. }
  split; [done|]. unfold SW.record_message. by rewrite Hcs.
Qed.

Lemma X1_can_send_absorbed_by_later_call_witness :
  let self := SW.Build 10 2 {[ "1" := [0; 8] ]} in
  let self1 := snd (SW.can_send_message self "1" 10) in
  SW.can_send_message self1 "1" 18 = SW.can_send_message self "1" 18
  ∧ SW.record_message self1 "1" 18 19 = SW.record_message self "1" 18 19.
Proof.
  apply (X1_can_send_absorbed_by_later_call
           (SW.Build 10 2 {[ "1" := [0; 8] ]}) "1" 10 18 19).
  lia.
Defined.

(** ** Reclamation *)

Lemma popleft_while_all (bound : Z) (q : list Z) :
  Forall (λ x, x ≤ bound) q → SW.popleft_while bound q = [].
Proof.
  induction 1 as [|x q Hx Hq IH]; simpl; [done|].
  destruct (Z.leb_spec x bound); [done | lia].
Qed.

(** X2. [can_send_message] never adds a key to the dictionary, and it removes
    the key of its user when every timestamp stored for that user has
    expired; the answer is then [0 < max_requests]. *)
Theorem X2_can_send_reclaims_expired_user :
  (∀ (self : SW.t) (u u' : string) (now : Z),
     SW.user_messages self !! u' = None →
     SW.user_messages (snd (SW.can_send_message self u now)) !! u' = None)
  ∧ (∀ (self : SW.t) (u : string) (now : Z) (q : list Z),
       SW.user_messages self !! u = Some q →
       Forall (λ x, x ≤ now - SW.window_size self) q →
       SW.user_messages (snd (SW.can_send_message self u now)) !! u = None
       ∧ fst (SW.can_send_message self u now) = (0 <? SW.max_requests self)).
Proof.
  split.
  - intros self u u' now Hnone. rewrite can_send_state.
    destruct (decide (u = u')) as [<-|Hne].
    + rewrite cleanup_lookup. unfold stored. by rewrite Hnone.
    + by rewrite cleanup_lookup_ne.
  - intros self u now q Hq Hexp.
    rewrite can_send_state, cleanup_lookup, can_send_result.
    rewrite (stored_lookup _ _ _ Hq), popleft_while_all by done. done.
Qed.

Lemma X2_can_send_reclaims_expired_user_witness :
  (let self := SW.Build 10 2 {[ "1" := [0; 8] ]} in
   SW.user_messages (snd (SW.can_send_message self "1" 9)) !! "2" = None)
  ∧ (let self := SW.Build 10 2 {[ "1" := [0; 8] ]} in
     SW.user_messages (snd (SW.can_send_message self "1" 18)) !! "1" = None
     ∧ fst (SW.can_send_message self "1" 18) = (0 <? SW.max_requests self)).
Proof.
  split.
  - apply (proj1 X2_can_send_reclaims_expired_user). vm_compute. reflexivity.
  - apply (proj2 X2_can_send_reclaims_expired_user
             (SW.Build 10 2 {[ "1" := [0; 8] ]}) "1" 18 [0; 8]).
    + vm_compute. reflexivity.
    + repeat constructor; simpl; lia.
Defined.

(** ** Capacity *)

(** X3. Whatever the clock does, no user of a limiter built by the constructor
    ever has more than [max_requests] timestamps stored; with
    [max_requests < 1] nothing is ever stored. *)
Theorem X3_stored_never_exceeds_max_requests :
  ∀ (W N : Z) (calls : list SW.call) (u : string),
    Z.of_nat (length (stored (SW.run (SW.Build W N ∅) calls) u)) ≤ Z.max 0 N.
Proof.
  intros W N calls u. unfold stored.
  destruct (SW.user_messages _ !! u) as [q|] eqn:E; simpl; [|lia].
  destruct (run_wf (SW.Build W N ∅) calls (init_wf W N) u q E) as [_ Hlen].
  rewrite (proj2 (run_params _ _)) in Hlen. simpl in Hlen. lia.
Qed.

(** ** Waiting the advertised time *)

(** X4. Sliding window, limiter built by the constructor with
    [max_requests >= 1]: at any time [t] that is at least the advertised
    wait after [now], [can_send_message] answers [True].  In particular a
    wait of 0 means the user may send at once.  With [max_requests = 1]
    (the default) the converse holds: the answer is [True] only if the wait
    is 0. *)
Theorem X4_sw_wait_is_sufficient :
  ∀ (W N : Z) (calls : list SW.call) (u : string) (now t : Z),
    let self := SW.run (SW.Build W N ∅) calls in
    1 ≤ N →
    (now + fst (SW.time_until_next_allowed self u now) ≤ t →
     fst (SW.can_send_message self u t) = true)
    ∧ (N = 1 → fst (SW.can_send_message self u now) = true →
       fst (SW.time_until_next_allowed self u now) = 0).
Proof.
  intros W N calls u now t self HN.
  assert (sw_wf self) as Hwf by apply run_wf, init_wf.
  destruct (run_params (SW.Build W N ∅) calls) as [HW HM].
  fold self in HW, HM. simpl in HW, HM.
  rewrite !can_send_result, time_until_value, HW, HM. unfold stored.
  destruct (SW.user_messages self !! u) as [q|] eqn:E; simpl.
  2:{ split; [intros _; apply Z.ltb_lt; lia | done]. }
  destruct (Hwf u q E) as [Hne Hlen]. rewrite HM in Hlen.
  destruct q as [|x q]; [done|]. simpl in Hlen |- *. split.
  - intros Ht. destruct (Z.leb_spec x (t - W)); [|lia].
    apply Z.ltb_lt. pose proof (popleft_while_length (t - W) q). lia.
  - intros -> Hok. destruct (Z.leb_spec x (now - W)); [lia|].
    apply Z.ltb_lt in Hok. simpl in Hok. lia.
Qed.

Lemma X4_sw_wait_is_sufficient_witness :
  let self := SW.run (SW.Build 10 1 ∅) [SW.RecordMsg "1" 0 0] in
  fst (SW.can_send_message self "1" 10) = true
  ∧ fst (SW.time_until_next_allowed self "1" 10) = 0.
Proof.
  intros self.
  assert (1 ≤ 1) as H1 by lia.
  destruct (X4_sw_wait_is_sufficient 10 1 [SW.RecordMsg "1" 0 0] "1" 5 10 H1)
    as [Hsuff _].
  destruct (X4_sw_wait_is_sufficient 10 1 [SW.RecordMsg "1" 0 0] "1" 10 10 H1)
    as [_ Hconv].
  split.
  - apply Hsuff. vm_compute. discriminate.
  - apply Hconv; [reflexivity | vm_compute; reflexivity].
Defined.

(** X5. Throttling, any state: the wait is 0 exactly when [can_send_message]
    answers [True], and at any time at least the advertised wait after
    [now] the answer is [True]. *)
Theorem X5_th_wait_is_exact :
  ∀ (self : TH.t) (u : string) (now t : Z),
    (fst (TH.time_until_next_allowed self u now) = 0
     ↔ fst (TH.can_send_message self u now) = true)
    ∧ (now + fst (TH.time_until_next_allowed self u now) ≤ t →
       fst (TH.can_send_message self u t) = true).
Proof.
  intros self u now t. rewrite th_time_until_value.
  unfold TH.can_send_message; simpl.
  destruct (TH.user_last_message self !! u) as [last|]; [|done].
  rewrite !Z.geb_le. split; [split|]; lia.
Qed.

Lemma X5_th_wait_is_exact_witness :
  let self := TH.Build 10 {[ "1" := 0 ]} in
  fst (TH.can_send_message self "1" 10) = true
  ∧ fst (TH.can_send_message self "1" 12) = true.
Proof.
  intros self.
  destruct (X5_th_wait_is_exact self "1" 10 12) as [Hzero Hlater].
  split.
  - apply Hzero. vm_compute. reflexivity.
  - apply Hlater. vm_compute. discriminate.
Defined.


(** ** Calls for other users *)

Lemma th_step_lookup_ne (self : TH.t) (c : TH.call) (u : string) :
  th_user c ≠ u →
  TH.user_last_message (TH.step self c) !! u = TH.user_last_message self !! u.
Proof.
  destruct c as [u' now|u' now stamp|u' now]; simpl; intros Hne.
  - done.
  - by apply th_record_lookup_ne.
  - by rewrite th_time_until_state.
Qed.

Lemma th_step_min_interval (self : TH.t) (c : TH.call) :
  TH.min_interval (TH.step self c) = TH.min_interval self.
Proof.
  destruct c as [u' now|u' now stamp|u' now]; simpl.
  - done.
  - apply th_record_min_interval.
  - by rewrite th_time_until_state.
Qed.

Lemma th_run_snoc (self : TH.t) (calls : list TH.call) (c : TH.call) :
  TH.run self (calls ++ [c]) = TH.step (TH.run self calls) c.
Proof. unfold TH.run. by rewrite fold_left_app. Qed.

Lemma th_run_min_interval (self : TH.t) (calls : list TH.call) :
  TH.min_interval (TH.run self calls) = TH.min_interval self.
Proof.
  induction calls as [|c calls IH] using rev_ind; [done|].
  by rewrite th_run_snoc, th_step_min_interval.
Qed.

Lemma sw_user_cleanup_time (c : SW.call) (u : string) :
  sw_user c ≠ u → SW.cleanup_time u c = None.
Proof.
  destruct c as [u' now|u' now stamp|u' now]; simpl; intros Hne; [| |done];
    by destruct (decide (u' = u)).
Qed.

(** X6. Calls of any of the three methods made for users other than [b] leave
    the entry of [b] as it was, in both limiters. *)
Theorem X6_calls_for_others_keep_entry :
  (∀ (self : SW.t) (calls : list SW.call) (b : string),
     Forall (λ c, sw_user c ≠ b) calls →
     SW.user_messages (SW.run self calls) !! b = SW.user_messages self !! b)
  ∧ (∀ (self : TH.t) (calls : list TH.call) (b : string),
       Forall (λ c, th_user c ≠ b) calls →
       TH.user_last_message (TH.run self calls) !! b
       = TH.user_last_message self !! b).
Proof.
  split.
  - intros self calls b. induction calls as [|c calls IH] using rev_ind; [done|].
    intros [Hcalls Hc]%Forall_app. rewrite Forall_singleton in Hc.
    rewrite run_snoc. rewrite step_lookup_ne; [by apply IH|].
    by apply sw_user_cleanup_time.
  - intros self calls b. induction calls as [|c calls IH] using rev_ind; [done|].
    intros [Hcalls Hc]%Forall_app. rewrite Forall_singleton in Hc.
    rewrite th_run_snoc. rewrite th_step_lookup_ne; [by apply IH | done].
Qed.

Lemma X6_calls_for_others_keep_entry_witness :
  (let self := SW.Build 10 1 {[ "2" := [3] ]} in
   let calls := [SW.RecordMsg "1" 4 4; SW.CanSend "3" 15; SW.TimeUntil "1" 16] in
   SW.user_messages (SW.run self calls) !! "2" = SW.user_messages self !! "2")
  ∧ (let self := TH.Build 10 {[ "2" := 3 ]} in
     let calls := [TH.RecordMsg "1" 4 4; TH.CanSend "3" 15; TH.TimeUntil "1" 16] in
     TH.user_last_message (TH.run self calls) !! "2"
     = TH.user_last_message self !! "2").
Proof.
  split.
  - apply (proj1 X6_calls_for_others_keep_entry). repeat constructor; discriminate.
  - apply (proj2 X6_calls_for_others_keep_entry). repeat constructor; discriminate.
Defined.

(** ** The log of accepted stamps, throttling limiter *)

Lemma th_accepted_snoc (u : string) (calls : list TH.call) (c : TH.call) :
  ∀ self : TH.t,
    th_accepted u self (calls ++ [c]) =
    th_accepted u self calls ++ th_accepted_call u (TH.run self calls) c.
Proof.
  induction calls as [|c' calls IH]; intros self; simpl.
  - by rewrite app_nil_r.
  - rewrite IH. by rewrite app_assoc.
Qed.

Lemma th_clock_snoc (calls : list TH.call) (c : TH.call) :
  th_clock (calls ++ [c]) = th_clock calls ++ th_readings c.
Proof.
  unfold th_clock. rewrite map_app, concat_app. simpl. by rewrite app_nil_r.
Qed.

(** What one call does to the entry of [u], in terms of the stamp it
    logs. *)
Lemma th_step_lookup (self : TH.t) (c : TH.call) (u : string) :
  TH.user_last_message (TH.step self c) !! u =
  match last (th_accepted_call u self c) with
  | Some a => Some a
  | None => TH.user_last_message self !! u
  end.
Proof.
  destruct c as [u' now|u' now stamp|u' now]; simpl.
  - done.
  - destruct (decide (u' = u)) as [->|Hne].
    + destruct (fst (TH.can_send_message self u now)) eqn:E.
      * rewrite th_record_accept by done. simpl. apply lookup_insert_eq.
      * by rewrite th_record_reject.
    + by apply th_record_lookup_ne.
  - by rewrite th_time_until_state.
Qed.

Lemma th_run_lookup (self : TH.t) (calls : list TH.call) (u : string) :
  TH.user_last_message (TH.run self calls) !! u =
  match last (th_accepted u self calls) with
  | Some a => Some a
  | None => TH.user_last_message self !! u
  end.
Proof.
  induction calls as [|c calls IH] using rev_ind; [done|].
  rewrite th_run_snoc, th_accepted_snoc, th_step_lookup, last_app.
  by destruct (last (th_accepted_call u (TH.run self calls) c)).
Qed.

(** X7. The throttling dictionary holds, for each user, the stamp of the last
    accepted [record_message]; without an accepted call the entry is what
    it was at the start.  No call removes an entry. *)
Theorem X7_th_entry_is_last_accepted :
  ∀ (self : TH.t) (calls : list TH.call) (u : string),
    TH.user_last_message (TH.run self calls) !! u =
    match last (th_accepted u self calls) with
    | Some a => Some a
    | None => TH.user_last_message self !! u
    end
    ∧ (is_Some (TH.user_last_message self !! u) →
       is_Some (TH.user_last_message (TH.run self calls) !! u)).
Proof.
  intros self calls u. split; [apply th_run_lookup|].
  rewrite th_run_lookup. by destruct (last _).
Qed.

Lemma X7_th_entry_is_last_accepted_witness :
  let self := TH.Build 10 {[ "1" := 0 ]} in
  let calls := [TH.RecordMsg "1" 5 5; TH.CanSend "1" 11; TH.RecordMsg "2" 12 12] in
  is_Some (TH.user_last_message (TH.run self calls) !! "1").
Proof.
  intros self calls.
  apply (proj2 (X7_th_entry_is_last_accepted self calls "1")).
  vm_compute. eauto.
Defined.


(** X8. Under a non-decreasing clock, consecutive accepted stamps of a user are
    at least [min_interval] apart, from whatever state the run starts. *)
Theorem X8_th_accepted_stamps_spaced :
  ∀ (self : TH.t) (calls : list TH.call) (u : string),
    Sorted Z.le (th_clock calls) →
    Sorted (λ a b, a + TH.min_interval self ≤ b) (th_accepted u self calls).
Proof.
  intros self calls u Hclock%Sorted_StronglySorted; [|apply _].
  induction calls as [|c calls IH] using rev_ind; [constructor|].
  rewrite th_clock_snoc in Hclock.
  apply StronglySorted_app in Hclock as (_ & Hclock & Hrd).
  specialize (IH Hclock). rewrite th_accepted_snoc.
  destruct c as [u' now|u' now stamp|u' now]; simpl;
    [by rewrite app_nil_r| |by rewrite app_nil_r].
  destruct (decide (u' = u)) as [->|Hne]; [|by rewrite app_nil_r].
  destruct (fst (TH.record_message (TH.run self calls) u now stamp)) eqn:Eok;
    [|by rewrite app_nil_r].
  apply Sorted_snoc; [done|].
  pose proof (th_run_lookup self calls u) as Hent.
  destruct (last (th_accepted u self calls)) as [a|] eqn:Elast.
  - apply last_Some in Elast as [l' ->]. constructor.
    rewrite th_record_result in Eok.
    apply th_can_send_true in Eok as [Hnone|(last0 & Hl & Hge)];
      [congruence|].
    rewrite Hent in Hl. injection Hl as <-.
    rewrite th_run_min_interval in Hge.
    simpl in Hrd. apply StronglySorted_cons in Hrd as [Hns _].
    apply Forall_cons in Hns as [Hns _]. lia.
  - apply last_None in Elast as ->. constructor.
Qed.

Lemma X8_th_accepted_stamps_spaced_witness :
  let self := TH.Build 10 ∅ in
  let calls := [TH.RecordMsg "1" 0 1; TH.RecordMsg "1" 9 9; TH.CanSend "1" 12;
                TH.RecordMsg "1" 12 13; TH.RecordMsg "1" 23 23] in
  Sorted (λ a b, a + TH.min_interval self ≤ b) (th_accepted "1" self calls).
Proof.
  intros self calls. apply X8_th_accepted_stamps_spaced.
  repeat constructor; simpl; lia.
Defined.

(** ** The log of accepted stamps, sliding-window limiter *)

Section Filter.
Context (P : Z → Prop) `{!∀ x, Decision (P x)}.

Lemma filter_none (l : list Z) : Forall (λ x, ¬ P x) l → filter P l = [].
Proof.
  induction 1 as [|x l Hx Hl IH]; [done|]. by rewrite filter_cons_False.
Qed.

Lemma filter_all (l : list Z) : Forall P l → filter P l = l.
Proof.
  induction 1 as [|x l Hx Hl IH]; [done|].
  rewrite filter_cons_True by done. by f_equal.
Qed.

End Filter.

(** On a sorted deque the loop of [_cleanup_window] keeps exactly the
    elements above the bound. *)
Lemma popleft_while_filter (bound : Z) (q : list Z) :
  StronglySorted Z.le q →
  SW.popleft_while bound q = filter (λ a, bound < a) q.
Proof.
  induction 1 as [|x q Hq IH Hx]; simpl; [done|].
  destruct (Z.leb_spec x bound).
  - rewrite filter_cons_False by lia. exact IH.
  - symmetry. apply filter_all. constructor; [done|].
    eapply Forall_impl; [exact Hx|]. simpl. lia.
Qed.

Lemma sw_accepted_snoc (u : string) (calls : list SW.call) (c : SW.call) :
  ∀ self : SW.t,
    sw_accepted u self (calls ++ [c]) =
    sw_accepted u self calls ++ sw_accepted_call u (SW.run self calls) c.
Proof.
  induction calls as [|c' calls IH]; intros self; simpl.
  - by rewrite app_nil_r.
  - rewrite IH. by rewrite app_assoc.
Qed.

(** What one call does to the deque of [u]: nothing if it does not clean
    [u]; otherwise the deque is pruned and the logged stamp, if any, is
    appended.  A stamp is logged only when the pruned deque is shorter
    than [max_requests]. *)
Lemma sw_step_stored (self : SW.t) (c : SW.call) (u : string) :
  match SW.cleanup_time u c with
  | None =>
      stored (SW.step self c) u = stored self u ∧ sw_accepted_call u self c = []
  | Some now =>
      let q := SW.popleft_while (now - SW.window_size self) (stored self u) in
      stored (SW.step self c) u = q ++ sw_accepted_call u self c
      ∧ now ∈ SW.readings c
      ∧ (sw_accepted_call u self c = []
         ∨ ∃ stamp, sw_accepted_call u self c = [stamp]
                    ∧ SW.readings c = [now; stamp]
                    ∧ Z.of_nat (length q) < SW.max_requests self)
  end.
Proof.
  destruct c as [u' now|u' now stamp|u' now]; simpl.
  - destruct (decide (u' = u)) as [->|Hne]; cbv zeta.
    + rewrite cleanup_stored, app_nil_r. split; [done|].
      split; [set_solver | by left].
    + split; [|done]. unfold stored. by rewrite cleanup_lookup_ne.
  - destruct (decide (u' = u)) as [->|Hne]; cbv zeta.
    + rewrite record_stored, record_result. cbv zeta.
      destruct (fst (SW.can_send_message self u now)) eqn:Eok.
      * split; [done|]. split; [set_solver|]. right. exists stamp.
        split; [done|]. split; [done|].
        rewrite can_send_result in Eok. by apply Z.ltb_lt.
      * rewrite app_nil_r. split; [done|]. split; [set_solver | by left].
    + split; [|done]. unfold stored. by rewrite record_lookup_ne.
  - by rewrite time_until_state.
Qed.

(** The invariant that ties the deque of [u] to the log of its accepted
    stamps under a non-decreasing clock: the log is the deque preceded by
    stamps that were already expired at some reading of the history; the
    log is sorted and made of readings of the history; no window of length
    [W] holds more than [N] logged stamps. *)
Lemma sw_log_invariant (W N : Z) (u : string) (calls : list SW.call) :
  StronglySorted Z.le (SW.clock calls) →
  let self := SW.run (SW.Build W N ∅) calls in
  let acc := sw_accepted u (SW.Build W N ∅) calls in
  (∃ dropped, acc = dropped ++ stored self u
              ∧ Forall (λ d, ∃ r, r ∈ SW.clock calls ∧ d ≤ r - W) dropped)
  ∧ StronglySorted Z.le acc
  ∧ (∀ a, a ∈ acc → a ∈ SW.clock calls)
  ∧ (∀ t, Z.of_nat (in_window W t acc) ≤ Z.max 0 N).
Proof.
  induction calls as [|c calls IH] using rev_ind; intros Hclock; cbv zeta.
  { simpl. split; [by exists []|]. split; [constructor|].
    split; [by intros a Ha%elem_of_nil|]. intros t. unfold in_window. simpl. lia. }
  rewrite clock_snoc in Hclock |- *.
  apply StronglySorted_app in Hclock as (Hle & Hclock & Hrd).
  destruct (IH Hclock) as ((dropped & Hacc & Hdrop) & Hs & Hin & Hwin).
  clear IH. rewrite run_snoc, sw_accepted_snoc.
  set (self := SW.run (SW.Build W N ∅) calls) in *.
  set (acc := sw_accepted u (SW.Build W N ∅) calls) in *.
  destruct (run_params (SW.Build W N ∅) calls) as [HW HN].
  fold self in HW, HN. simpl in HW, HN.
  pose proof (sw_step_stored self c u) as Hstep. rewrite HW, HN in Hstep.
  assert (Forall (λ d, ∃ r, r ∈ SW.clock calls ++ SW.readings c ∧ d ≤ r - W)
            dropped) as Hdrop'.
  { eapply Forall_impl; [exact Hdrop|]. intros d (r & Hr & Hd). exists r.
    split; [|done]. apply elem_of_app. by left. }
  destruct (SW.cleanup_time u c) as [now|].
  2:{ destruct Hstep as [-> ->]. rewrite app_nil_r.
      split; [by exists dropped|]. split; [done|]. split; [|done].
      intros a Ha. apply elem_of_app. left. by apply Hin. }
  cbv zeta in Hstep. destruct Hstep as (Hst & Hnow & Hlog).
  destruct (popleft_while_split (now - W) (stored self u)) as (pre & Hsplit & Hpre).
  set (q := SW.popleft_while (now - W) (stored self u)) in *.
  assert (acc = (dropped ++ pre) ++ q) as Hacc'
    by (by rewrite Hacc, Hsplit at 1; rewrite app_assoc).
  assert (Forall (λ d, ∃ r, r ∈ SW.clock calls ++ SW.readings c ∧ d ≤ r - W)
            (dropped ++ pre)) as Hdp.
  { apply Forall_app. split; [done|].
    eapply Forall_impl; [exact Hpre|]. intros d Hd. exists now.
    split; [|done]. apply elem_of_app. by right. }
  destruct Hlog as [Hlog|(stamp & Hlog & Hreads & Hlen)];
    rewrite Hlog in Hst |- *.
  { rewrite app_nil_r in Hst |- *. rewrite Hst.
    split; [by exists (dropped ++ pre)|]. split; [done|]. split; [|done].
    intros a Ha. apply elem_of_app. left. by apply Hin. }
  rewrite Hreads in Hrd, Hle, Hdp |- *.
  apply StronglySorted_cons in Hrd as [Hns _].
  apply Forall_cons in Hns as [Hns _].
  assert (∀ a, a ∈ acc → a ≤ now) as Hacc_le.
  { intros a Ha. apply Hle; [by apply Hin | by left]. }
  rewrite Hst. split; [|split; [|split]].
  - exists (dropped ++ pre). split; [|done]. by rewrite Hacc', app_assoc.
  - apply StronglySorted_app_2; [|done|repeat constructor].
    intros x1 x2 Hx1 ->%list_elem_of_singleton. specialize (Hacc_le x1 Hx1). lia.
  - intros a [Ha| ->%list_elem_of_singleton]%elem_of_app; apply elem_of_app;
      [left; by apply Hin | right; set_solver].
  - intros t. unfold in_window. rewrite filter_app, length_app.
    destruct (decide (t - W < stamp ∧ stamp ≤ t)) as [Hw|Hw].
    + rewrite (filter_singleton_True _ _ []) by done. simpl.
      assert (filter (λ a, t - W < a ∧ a ≤ t) (dropped ++ pre) = []) as Hnone.
      { apply filter_none. eapply Forall_impl; [exact Hdp|].
        intros d (r & Hr & Hd) [Hd1 Hd2].
        assert (r ≤ stamp); [|lia].
        apply elem_of_app in Hr as [Hr|Hr].
        - assert (r ≤ now) by (apply Hle; [done | by left]). lia.
        - apply elem_of_cons in Hr as [->|Hr]; [lia|].
          apply list_elem_of_singleton in Hr as ->. lia. }
      rewrite Hacc', filter_app, Hnone. simpl.
      pose proof (length_filter (λ a, t - W < a ∧ a ≤ t) q). lia.
    + rewrite (filter_singleton_False _ _ []) by done. simpl.
      specialize (Hwin t). unfold in_window in Hwin. lia.
Qed.

Lemma filter_ext_elem_of (P Q : Z → Prop) `{!∀ x, Decision (P x)}
    `{!∀ x, Decision (Q x)} (l : list Z) :
  (∀ x, x ∈ l → (P x ↔ Q x)) → filter P l = filter Q l.
Proof.
  induction l as [|x l IH]; intros Hext; [done|].
  assert (filter P l = filter Q l) as Hl.
  { apply IH. intros y Hy. apply Hext. by right. }
  destruct (decide (P x)) as [HP|HP].
  - rewrite !filter_cons_True; [by f_equal| |done]. apply Hext; [by left | done].
  - rewrite !filter_cons_False; [done| |done].
    intros HQ. apply HP. apply Hext; [by left | done].
Qed.

(** X9. The rate limit.  Under a non-decreasing clock, for a limiter built
    by the constructor and any calls of its methods, no interval
    [(t - window_size, t]] contains more than [max_requests] stamps of
    accepted [record_message] calls of one user (none at all when
    [max_requests < 1]). *)
Theorem X9_sliding_window_rate_limit :
  ∀ (W N : Z) (calls : list SW.call) (u : string) (t : Z),
    Sorted Z.le (SW.clock calls) →
    Z.of_nat (in_window W t (sw_accepted u (SW.Build W N ∅) calls)) ≤ Z.max 0 N.
Proof.
  intros W N calls u t Hclock%Sorted_StronglySorted; [|apply _].
  destruct (sw_log_invariant W N u calls Hclock) as (_ & _ & _ & Hwin).
  apply Hwin.
Qed.

Lemma X9_sliding_window_rate_limit_witness :
  let calls := [SW.RecordMsg "1" 0 0; SW.RecordMsg "1" 3 4; SW.RecordMsg "1" 5 5;
                SW.CanSend "1" 9; SW.RecordMsg "1" 10 11; SW.RecordMsg "1" 12 12] in
  Z.of_nat (in_window 10 12 (sw_accepted "1" (SW.Build 10 2 ∅) calls)) ≤ Z.max 0 2.
Proof.
  intros calls. apply X9_sliding_window_rate_limit.
  repeat constructor; simpl; lia.
Defined.

(** X10. The decision counts the log.  Under a non-decreasing clock, for a
    limiter built by the constructor, [can_send_message] at time [now]
    leaves for the user exactly the accepted stamps younger than
    [now - window_size], in order, and answers [True] exactly when fewer
    than [max_requests] accepted stamps lie in [(now - window_size, now]]. *)
Theorem X10_can_send_counts_accepted_stamps :
  ∀ (W N : Z) (calls : list SW.call) (u : string) (now : Z),
    Sorted Z.le (SW.clock (calls ++ [SW.CanSend u now])) →
    let self := SW.run (SW.Build W N ∅) calls in
    let acc := sw_accepted u (SW.Build W N ∅) calls in
    stored (snd (SW.can_send_message self u now)) u = filter (λ a, now - W < a) acc
    ∧ fst (SW.can_send_message self u now) = (Z.of_nat (in_window W now acc) <? N).
Proof.
  intros W N calls u now Hclock%Sorted_StronglySorted self acc; [|apply _].
  rewrite clock_snoc in Hclock.
  apply StronglySorted_app in Hclock as (Hle & Hclock & _).
  destruct (sw_log_invariant W N u calls Hclock)
    as ((dropped & Hacc & Hdrop) & Hs & Hin & _).
  fold self acc in Hacc, Hs, Hin.
  destruct (run_params (SW.Build W N ∅) calls) as [HW HN].
  fold self in HW, HN. simpl in HW, HN.
  assert (SW.popleft_while (now - W) (stored self u)
          = filter (λ a, now - W < a) acc) as Hprune.
  { rewrite Hacc in Hs |- *. rewrite filter_app.
    rewrite (filter_none _ dropped).
    - simpl. apply popleft_while_filter. by apply StronglySorted_app_1_r in Hs.
    - eapply Forall_impl; [exact Hdrop|]. intros d (r & Hr & Hd).
      assert (r ≤ now) by (apply Hle; [done | by left]). lia. }
  split.
  - by rewrite can_send_state, cleanup_stored, HW.
  - rewrite can_send_result, HW, HN, Hprune. unfold in_window.
    rewrite (filter_ext_elem_of (λ a, now - W < a ∧ a ≤ now) (λ a, now - W < a));
      [done|].
    intros a Ha. assert (a ≤ now) by (apply Hle; [by apply Hin | by left]).
    split; [by intros [? _] | done].
Qed.

Lemma X10_can_send_counts_accepted_stamps_witness :
  let calls := [SW.RecordMsg "1" 0 0; SW.RecordMsg "1" 3 4; SW.RecordMsg "1" 5 5;
                SW.TimeUntil "1" 9; SW.RecordMsg "1" 10 11] in
  let self := SW.run (SW.Build 10 2 ∅) calls in
  let acc := sw_accepted "1" (SW.Build 10 2 ∅) calls in
  stored (snd (SW.can_send_message self "1" 14)) "1" = filter (λ a, 14 - 10 < a) acc
  ∧ fst (SW.can_send_message self "1" 14) = (Z.of_nat (in_window 10 14 acc) <? 2).
Proof.
  intros calls. apply X10_can_send_counts_accepted_stamps.
  repeat constructor; simpl; lia.
Defined.

(** ** One request per window is throttling *)

Lemma agree_on_mono (W lo lo' : Z) (sw : SW.t) (th : TH.t) (u : string) :
  lo ≤ lo' → agree_on W lo sw th u → agree_on W lo' sw th u.
Proof.
  intros Hlo [[Hst Hth]|Hone]; [left | by right].
  split; [done|]. destruct (TH.user_last_message th !! u); [lia | done].
Qed.

Lemma th_user_of_sw (c : SW.call) : th_user (th_of_sw c) = sw_user c.
Proof. by destruct c. Qed.

(** The answers agree on the user of the call. *)
Lemma agree_answer (W lo : Z) (sw : SW.t) (th : TH.t) (c : SW.call) :
  SW.window_size sw = W → SW.max_requests sw = 1 → TH.min_interval th = W →
  Forall (λ r, lo ≤ r) (SW.readings c) →
  agree_on W lo sw th (sw_user c) →
  sw_answer sw c = th_answer th (th_of_sw c).
Proof.
  intros HW HN HM Hlo Hag.
  assert (∀ now, lo ≤ now →
            fst (SW.can_send_message sw (sw_user c) now)
            = fst (TH.can_send_message th (sw_user c) now)) as Hcs.
  { intros now Hnow. rewrite can_send_result, HW, HN.
    unfold TH.can_send_message; simpl. rewrite HM.
    destruct Hag as [[-> Hth]|(a & -> & ->)]; simpl.
    - destruct (TH.user_last_message th !! sw_user c) as [a|]; [|done].
      symmetry. apply Z.geb_le. lia.
    - destruct (Z.leb_spec a (now - W)); simpl.
      + symmetry. apply Z.geb_le. lia.
      + symmetry. rewrite Z.geb_leb. apply Z.leb_gt. lia. }
  destruct c as [u now|u now stamp|u now]; simpl in *.
  - apply Forall_cons in Hlo as [Hlo _]. f_equal. by apply Hcs.
  - apply Forall_cons in Hlo as [Hlo _]. f_equal.
    rewrite record_result, th_record_result. by apply Hcs.
  - apply Forall_cons in Hlo as [Hlo _]. f_equal.
    rewrite time_until_value, th_time_until_value, HW, HM.
    destruct Hag as [[-> Hth]|(a & -> & ->)]; simpl; [|done].
    destruct (TH.user_last_message th !! u) as [a|]; [lia | done].
Qed.

(** The step keeps the agreement, for every user. *)
Lemma agree_step (W lo hi : Z) (sw : SW.t) (th : TH.t) (c : SW.call) (u : string) :
  SW.window_size sw = W → SW.max_requests sw = 1 → TH.min_interval th = W →
  Forall (λ r, lo ≤ r ∧ r ≤ hi) (SW.readings c) →
  agree_on W lo sw th (sw_user c) →
  agree_on W lo sw th u →
  agree_on W hi (SW.step sw c) (TH.step th (th_of_sw c)) u.
Proof.
  intros HW HN HM Hrd Hagc Hag.
  assert (lo ≤ hi) as Hlohi.
  { destruct c; simpl in Hrd; apply Forall_cons in Hrd as [? _]; lia. }
  destruct (decide (sw_user c = u)) as [Heq|Hne].
  2:{ apply (agree_on_mono W lo); [done|].
      unfold agree_on, stored in *.
      rewrite step_lookup_ne by by apply sw_user_cleanup_time.
      rewrite th_step_lookup_ne by by rewrite th_user_of_sw. done. }
  pose proof (agree_answer W lo sw th c HW HN HM) as Hans.
  destruct c as [u' now|u' now stamp|u' now]; simpl in Heq; subst u';
    simpl in Hrd, Hans; cbn [SW.step TH.step th_of_sw].
  - apply Forall_cons in Hrd as [[Hlo Hhi] _].
    unfold agree_on. rewrite can_send_state, cleanup_stored, HW.
    rewrite th_can_send_state.
    destruct Hag as [[Hst Hth]|(a & Hst & Hth)]; rewrite Hst; simpl.
    + left. split; [done|].
      destruct (TH.user_last_message th !! u); [lia | done].
    + destruct (Z.leb_spec a (now - W)).
      * left. split; [done|]. rewrite Hth. lia.
      * right. by exists a.
  - apply Forall_cons in Hrd as [[Hlo Hhi] Hrd].
    apply Forall_cons in Hrd as [[Hlo' Hhi'] _].
    assert (fst (SW.record_message sw u now stamp)
            = fst (TH.record_message th u now stamp)) as Hsame.
    { assert (Allowed (fst (SW.record_message sw u now stamp))
              = Allowed (fst (TH.record_message th u now stamp))) as [= ->]; [|done].
      apply Hans; [|done]. repeat constructor; lia. }
    unfold agree_on. rewrite record_stored, HW. cbv zeta.
    rewrite <- (record_result sw u now stamp), Hsame.
    destruct (fst (TH.record_message th u now stamp)) eqn:Eok.
    + rewrite th_record_result in Eok. rewrite th_record_accept by done. simpl.
      rewrite lookup_insert_eq. right. exists stamp. split; [|done].
      rewrite record_result, can_send_result, HW, HN in Hsame.
      apply Z.ltb_lt in Hsame.
      by destruct (SW.popleft_while (now - W) (stored sw u)); [|simpl in Hsame; lia].
    + rewrite th_record_result in Eok. rewrite th_record_reject by done. simpl.
      destruct Hag as [[Hst Hth]|(a & Hst & Hth)]; rewrite Hst; simpl.
      * left. split; [done|].
        destruct (TH.user_last_message th !! u); [lia | done].
      * destruct (Z.leb_spec a (now - W)).
        -- left. split; [done|]. rewrite Hth. lia.
        -- right. by exists a.
  - rewrite time_until_state, th_time_until_state.
    by apply (agree_on_mono W lo).
Qed.

(** The last clock reading of a call. *)
Lemma readings_bounds (c : SW.call) (lo : Z) :
  StronglySorted Z.le (SW.readings c) →
  Forall (λ r, lo ≤ r) (SW.readings c) →
  ∃ hi, hi ∈ SW.readings c ∧ Forall (λ r, lo ≤ r ∧ r ≤ hi) (SW.readings c).
Proof.
  destruct c as [u now|u now stamp|u now]; simpl; intros Hs Hlo.
  - exists now. apply Forall_cons in Hlo as [? _].
    split; [by left|]. repeat constructor; lia.
  - exists stamp. apply Forall_cons in Hlo as [? Hlo].
    apply Forall_cons in Hlo as [? _].
    apply StronglySorted_cons in Hs as [Hs _]. apply Forall_cons in Hs as [? _].
    split; [right; by left|]. repeat constructor; lia.
  - exists now. apply Forall_cons in Hlo as [? _].
    split; [by left|]. repeat constructor; lia.
Qed.

Lemma agree_answers (W : Z) (calls : list SW.call) :
  ∀ (lo : Z) (sw : SW.t) (th : TH.t),
    SW.window_size sw = W → SW.max_requests sw = 1 → TH.min_interval th = W →
    (∀ u, agree_on W lo sw th u) →
    Forall (λ r, lo ≤ r) (SW.clock calls) →
    StronglySorted Z.le (SW.clock calls) →
    sw_answers sw calls = th_answers th (map th_of_sw calls).
Proof.
  induction calls as [|c calls IH]; intros lo sw th HW HN HM Hag Hlo Hs; [done|].
  change (SW.clock (c :: calls)) with (SW.readings c ++ SW.clock calls) in Hlo, Hs.
  apply Forall_app in Hlo as [Hlo _].
  apply StronglySorted_app in Hs as (Hle & Hsc & Hs).
  destruct (readings_bounds c lo Hsc Hlo) as (hi & Hhi & Hrd).
  simpl. f_equal.
  - by apply (agree_answer W lo).
  - apply (IH hi).
    + by rewrite step_window_size.
    + by rewrite step_max_requests.
    + by rewrite th_step_min_interval.
    + intros u. by apply (agree_step W lo).
    + apply Forall_forall. intros r Hr. by apply Hle.
    + done.
Qed.

(** X11. One request per window is throttling.  Under a non-decreasing
    clock, a sliding-window limiter built with [max_requests = 1] and a
    throttling limiter built with [min_interval = window_size] give the
    same answers to the same calls: the same booleans from
    [can_send_message] and [record_message] and the same waits from
    [time_until_next_allowed]. *)
Theorem X11_one_request_window_is_throttling :
  ∀ (W : Z) (calls : list SW.call),
    Sorted Z.le (SW.clock calls) →
    sw_answers (SW.Build W 1 ∅) calls
    = th_answers (TH.Build W ∅) (map th_of_sw calls).
Proof.
  intros W calls Hclock%Sorted_StronglySorted; [|apply _].
  destruct (SW.clock calls) as [|r0 rest] eqn:Eclock.
  - apply (agree_answers W calls 0); try done.
    + intros u. left. unfold stored. simpl. by rewrite !lookup_empty.
    + by rewrite Eclock.
    + by rewrite Eclock.
  - apply (agree_answers W calls r0); try done.
    + intros u. left. unfold stored. simpl. by rewrite !lookup_empty.
    + rewrite Eclock. apply StronglySorted_cons in Hclock as [Hr _].
      constructor; [lia | done].
    + by rewrite Eclock.
Qed.

Lemma X11_one_request_window_is_throttling_witness :
  let calls := [SW.RecordMsg "1" 0 1; SW.RecordMsg "1" 5 5; SW.TimeUntil "1" 6;
                SW.CanSend "1" 11; SW.TimeUntil "1" 11; SW.RecordMsg "1" 12 12] in
  sw_answers (SW.Build 10 1 ∅) calls
  = th_answers (TH.Build 10 ∅) (map th_of_sw calls).
Proof.
  intros calls. apply X11_one_request_window_is_throttling.
  repeat constructor; simpl; lia.
Defined.

(** ** The demonstration drivers *)








Lemma sw_series_app (clock : nat → Z * Z * Z) (ids1 ids2 : list nat) :
  ∀ limiter : SW.t,
    fst (sw_series clock limiter (ids1 ++ ids2)) =
    fst (sw_series clock limiter ids1)
      ++ fst (sw_series clock (snd (sw_series clock limiter ids1)) ids2).
Proof.
  induction ids1 as [|id ids1 IH]; intros limiter; [done|].
  simpl. destruct (sw_message clock limiter id) as [l limiter1].
  specialize (IH limiter1).
  destruct (sw_series clock limiter1 (ids1 ++ ids2)) as [ls limiter2].
  destruct (sw_series clock limiter1 ids1) as [ls1 limiter3].
  simpl in IH |- *. by rewrite IH.
Qed.

Lemma th_series_app (clock : nat → Z * Z * Z) (ids1 ids2 : list nat) :
  ∀ limiter : TH.t,
    fst (th_series clock limiter (ids1 ++ ids2)) =
    fst (th_series clock limiter ids1)
      ++ fst (th_series clock (snd (th_series clock limiter ids1)) ids2).
Proof.
  induction ids1 as [|id ids1 IH]; intros limiter; [done|].
  simpl. destruct (th_message clock limiter id) as [l limiter1].
  specialize (IH limiter1).
  destruct (th_series clock limiter1 (ids1 ++ ids2)) as [ls limiter2].
  destruct (th_series clock limiter1 ids1) as [ls1 limiter3].
  simpl in IH |- *. by rewrite IH.
Qed.

(** X13. Whatever the clock reads, the first five messages of either driver
    are accepted: they go to the five users "2", "3", "4", "5", "1", none
    of which has sent before. *)
Theorem X13_drivers_accept_first_five :
  ∀ clock : nat → Z * Z * Z,
    let five := [(1, 2, None); (2, 3, None); (3, 4, None); (4, 5, None);
                 (5, 1, None)]%nat in
    (∃ rest second,
       test_rate_limiter clock = Returned (five ++ rest, second))
    ∧ (∃ rest second,
         test_throttling_limiter clock = Returned (five ++ rest, second)).
Proof.
  intros clock five.
  destruct (clock 1%nat) as [[c1 a1] q1] eqn:E1.
  destruct (clock 2%nat) as [[c2 a2] q2] eqn:E2.
  destruct (clock 3%nat) as [[c3 a3] q3] eqn:E3.
  destruct (clock 4%nat) as [[c4 a4] q4] eqn:E4.
  destruct (clock 5%nat) as [[c5 a5] q5] eqn:E5.
  split.
  - pose proof (sw_series_app clock (seq 1 5) (seq 6 5) (SW.Build 10 1 ∅)) as Happ.
    change (seq 1 5 ++ seq 6 5) with (seq 1 10) in Happ.
    assert (fst (sw_series clock (SW.Build 10 1 ∅) (seq 1 5)) = five) as Hfive.
    { cbn [seq sw_series]. unfold sw_message. rewrite E1, E2, E3, E4, E5.
      vm_compute. reflexivity. }
    rewrite Hfive in Happ.
    unfold test_rate_limiter, SW.__init__.
    destruct (sw_series clock (SW.Build 10 1 ∅) (seq 1 10)) as [first sw1].
    destruct (sw_series clock sw1 (seq 11 10)) as [second sw2].
    simpl in Happ. rewrite Happ. eauto.
  - pose proof (th_series_app clock (seq 1 5) (seq 6 5) (TH.Build 10 ∅)) as Happ.
    change (seq 1 5 ++ seq 6 5) with (seq 1 10) in Happ.
    assert (fst (th_series clock (TH.Build 10 ∅) (seq 1 5)) = five) as Hfive.
    { cbn [seq th_series]. unfold th_message. rewrite E1, E2, E3, E4, E5.
      vm_compute. reflexivity. }
    rewrite Hfive in Happ.
    unfold test_throttling_limiter, TH.__init__.
    destruct (th_series clock (TH.Build 10 ∅) (seq 1 10)) as [first th1].
    destruct (th_series clock th1 (seq 11 10)) as [second th2].
    simpl in Happ. rewrite Happ. eauto.
Qed.
